(** * Nerdlog: transport modes and the custom-command shell transport

    A shallow embedding of [core/transport_mode.go] and
    [core/shell_transport_custom_cmd.go].  Go strings are byte strings and
    are modelled by [string]; Go maps by [gmap]; errors built with
    [juju/errors] are kept as the constructor calls that build them. *)

From Stdlib Require Import ZArith Ascii.
From stdpp Require Import gmap strings list fin_maps.

Local Open Scope Z_scope.

(** ** Go's [strings] package, the part the source uses *)

Module Strings.

Fixpoint HasPrefix (s prefix : string) {struct prefix} : bool :=
  match prefix with
  | EmptyString => true
  | String a prefix' =>
      match s with
      | EmptyString => false
      | String b s' => if Ascii.eqb a b then HasPrefix s' prefix' else false
      end
  end.

Fixpoint drop (n : nat) (s : string) : string :=
  match n, s with
  | O, _ => s
  | S _, EmptyString => EmptyString
  | S n', String _ s' => drop n' s'
  end.

Fixpoint take (n : nat) (s : string) : string :=
  match n, s with
  | O, _ => EmptyString
  | S _, EmptyString => EmptyString
  | S n', String a s' => String a (take n' s')
  end.

Definition TrimPrefix (s prefix : string) : string :=
  if HasPrefix s prefix then drop (String.length prefix) s else s.

End Strings.

(** ** Errors

    [errors.Errorf], [errors.New], [errors.Annotatef] and [errors.Trace] of
    juju/errors, kept symbolically: the format string and its arguments in
    the order of the call.  [SysError] stands for an error value coming from
    the operating system or from a library. *)

Inductive error : Type :=
| Errorf (format : string) (args : list string)
| New (msg : string)
| Annotatef (cause : error) (format : string) (args : list string)
| Trace (cause : error)
| SysError (msg : string).

(** A Go [(T, error)] result. *)
Inductive result (A : Type) : Type :=
| Ok (a : A)
| Err (e : error).
Arguments Ok {A} a.
Arguments Err {A} e.

(** ** core/transport_mode.go *)

Definition TransportModeKind := string.

Definition TransportModeKindSSHLib : TransportModeKind := "ssh-lib".
Definition TransportModeKindSSHBin : TransportModeKind := "ssh-bin".
Definition TransportModeKindCustom : TransportModeKind := "custom".

Record TransportMode : Type := mkTransportMode {
  kind : TransportModeKind;
  (* customCommand is only relevant when kind == TransportModeKindCustom *)
  customCommand : string
}.

Definition NewTransportModeSSHLib : TransportMode :=
  {| kind := TransportModeKindSSHLib; customCommand := EmptyString |}.

Definition NewTransportModeSSHBin : TransportMode :=
  {| kind := TransportModeKindSSHBin; customCommand := EmptyString |}.

Definition NewTransportModeCustom (customCommand : string) : TransportMode :=
  {| kind := TransportModeKindCustom; customCommand := customCommand |}.

Definition ParseTransportMode (spec : string) : result TransportMode :=
  let customPrefix := TransportModeKindCustom +:+ ":" in
  if String.eqb spec TransportModeKindSSHLib then
    Ok {| kind := TransportModeKindSSHLib; customCommand := EmptyString |}
  else if String.eqb spec TransportModeKindSSHBin then
    Ok {| kind := TransportModeKindSSHBin; customCommand := EmptyString |}
  else if Strings.HasPrefix spec customPrefix then
    let cmd := Strings.TrimPrefix spec customPrefix in
    Ok {| kind := TransportModeKindCustom; customCommand := cmd |}
  else
    Err (Errorf "invalid transport mode %q" [spec]).

Definition Kind (m : TransportMode) : TransportModeKind := kind m.

Definition DefaultSSHShellCommand : string :=
  "ssh -o 'BatchMode=yes' ${NLPORT:+-p ${NLPORT}} ${NLUSER:+${NLUSER}@}${NLHOST} /bin/sh".

(** [None] is the [panic("should never be here")] after the switch. *)
Definition CustomShellCommand (m : TransportMode) : option string :=
  if String.eqb (kind m) TransportModeKindSSHLib then Some EmptyString
  else if String.eqb (kind m) TransportModeKindSSHBin then Some DefaultSSHShellCommand
  else if String.eqb (kind m) TransportModeKindCustom then Some (customCommand m)
  else None.

Definition TransportMode_String (m : TransportMode) : string :=
  if String.eqb (kind m) TransportModeKindSSHLib
     || String.eqb (kind m) TransportModeKindSSHBin then kind m
  else if String.eqb (kind m) TransportModeKindCustom then
    kind m +:+ ":" +:+ customCommand m
  else "invalid".

(** ** Byte streams

    What a pipe end gives to successive [Read] calls: the bytes that were
    available at each call, and then how the stream ends.  [RHang] is a
    stream on which [Read] never returns again (the peer neither writes nor
    closes). *)

Inductive rend : Type :=
| REOF
| RErr (e : error)
| RHang.

Record reader : Type := mkReader {
  chunks : list string;
  rends : rend
}.

Definition bytes_of (r : reader) : string :=
  foldr String.app EmptyString (chunks r).

(** One [Read(p)] with [len(p) = room]. *)
Inductive read_result : Type :=
| ReadN (data : string) (r' : reader)      (* n = len(data), err == nil *)
| ReadEnd (e : option error) (r' : reader) (* n = 0, err = io.EOF or e   *)
| ReadBlocks.

Definition Read (r : reader) (room : nat) : read_result :=
  match chunks r with
  | [] =>
      match rends r with
      | REOF => ReadEnd None r
      | RErr e => ReadEnd (Some e) r
      | RHang => ReadBlocks
      end
  | c :: cs =>
      let rest := Strings.drop room c in
      ReadN (Strings.take room c)
            {| chunks := match rest with EmptyString => cs | _ => rest :: cs end;
               rends := rends r |}
  end.

(** [io.ReadAll]: everything up to the end of the stream; the caller in the
    source drops the error.  [None] when the stream never ends. *)
Definition ReadAll (r : reader) : option string :=
  match rends r with
  | RHang => None
  | _ => Some (bytes_of r)
  end.

(** ** bufio.Scanner with the default split function [ScanLines] *)

Module Bufio.

Definition startBufSize : Z := 4096.
Definition MaxScanTokenSize : Z := 64 * 1024.
Definition maxConsecutiveEmptyReads : Z := 100.

Definition ErrTooLong : error := New "bufio.Scanner: token too long".
Definition ErrNoProgress : error :=
  New "multiple Read calls return no data or error".

(** The sticky [s.err]: [io.EOF] or another error. *)
Inductive serr : Type :=
| AtEOF
| Failed (e : error).

Record Scanner : Type := mkScanner {
  r : reader;            (* the reader provided by the client *)
  cap : Z;               (* len(s.buf) *)
  start : Z;             (* first non-processed byte in buf *)
  data : string;         (* s.buf[s.start:s.end] *)
  err : option serr
}.

Definition NewScanner (rd : reader) : Scanner :=
  {| r := rd; cap := 0; start := 0; data := EmptyString; err := None |}.

Definition send (s : Scanner) : Z := start s + Z.of_nat (String.length (data s)).

Definition setErr (s : Scanner) (e : serr) : Scanner :=
  match err s with
  | None | Some AtEOF =>
      {| r := r s; cap := cap s; start := start s; data := data s; err := Some e |}
  | Some (Failed _) => s
  end.

(** [Scanner.Err]: nil when the error was io.EOF. *)
Definition Scanner_Err (s : Scanner) : option error :=
  match err s with
  | Some (Failed e) => Some e
  | _ => None
  end.

Definition newline : ascii := "010"%char.
Definition cr : ascii := "013"%char.

(** [bytes.IndexByte(data, '\n')] *)
Fixpoint IndexByte (d : string) (c : ascii) : option nat :=
  match d with
  | EmptyString => None
  | String a d' =>
      if Ascii.eqb a c then Some O
      else match IndexByte d' c with
           | Some i => Some (S i)
           | None => None
           end
  end.

(** [dropCR]: drops a terminal carriage return. *)
Fixpoint dropCR (d : string) : string :=
  match d with
  | EmptyString => EmptyString
  | String a EmptyString => if Ascii.eqb a cr then EmptyString else d
  | String a d' => String a (dropCR d')
  end.

(** [ScanLines(data, atEOF)]: the advance and the token ([None] is a nil
    token, a request for more data). *)
Definition ScanLines (d : string) (atEOF : bool) : nat * option string :=
  match d, atEOF with
  | EmptyString, true => (O, None)
  | _, _ =>
      match IndexByte d newline with
      | Some i => (S i, Some (dropCR (Strings.take i d)))
      | None =>
          if atEOF then (String.length d, Some (dropCR d))
          else (O, None)
      end
  end.

(** The read loop at the end of one iteration of [Scan]: reads until some
    data or an error arrives, giving up after too many empty reads. *)
Inductive fill_result : Type :=
| Filled (s : Scanner)
| FillBlocks.

Fixpoint fill (s : Scanner) (loop : Z) (cs : list string) (e : rend)
  : fill_result :=
  let room := Z.to_nat (cap s - send s) in
  match Read {| chunks := cs; rends := e |} room with
  | ReadBlocks => FillBlocks
  | ReadEnd None r' =>
      Filled (setErr {| r := r'; cap := cap s; start := start s;
                        data := data s; err := err s |} AtEOF)
  | ReadEnd (Some x) r' =>
      Filled (setErr {| r := r'; cap := cap s; start := start s;
                        data := data s; err := err s |} (Failed x))
  | ReadN d r' =>
      match d, cs with
      | EmptyString, EmptyString :: cs' =>
          (* an empty read *)
          if maxConsecutiveEmptyReads <? loop + 1 then
            Filled (setErr {| r := r'; cap := cap s; start := start s;
                              data := data s; err := err s |}
                           (Failed ErrNoProgress))
          else fill s (loop + 1) cs' e
      | EmptyString, _ =>
          (* no room: every further read is empty as well *)
          Filled (setErr {| r := r'; cap := cap s; start := start s;
                            data := data s; err := err s |}
                         (Failed ErrNoProgress))
      | _, _ =>
          Filled {| r := r'; cap := cap s; start := start s;
                    data := data s +:+ d; err := err s |}
      end
  end.

Inductive scan_result : Type :=
| Token (line : string) (s : Scanner)   (* Scan() = true, Text() = line *)
| Stop (s : Scanner)                    (* Scan() = false *)
| Blocks                                (* the Read inside never returns *)
| OutOfFuel.

(** Makes room in the buffer before a read: shifts the data to the
    beginning, doubles a full buffer up to [MaxScanTokenSize]; a full
    buffer of that size is a token too long. *)
Inductive room_result : Type :=
| Room (s : Scanner)
| TooLong (s : Scanner).

Definition makeRoom (s : Scanner) : room_result :=
  let s1 :=
    if (0 <? start s) && ((send s =? cap s) || (cap s / 2 <? start s)) then
      {| r := r s; cap := cap s; start := 0; data := data s; err := err s |}
    else s in
  if send s1 =? cap s1 then
    if MaxScanTokenSize <=? cap s1 then TooLong (setErr s1 (Failed ErrTooLong))
    else
      let newSize := if cap s1 * 2 =? 0 then startBufSize else cap s1 * 2 in
      Room {| r := r s1; cap := Z.min newSize MaxScanTokenSize; start := 0;
              data := data s1; err := err s1 |}
  else Room s1.

(** The first step of an iteration of [Scan]: with data in the buffer, or
    at the end of the input, asks the split function for a token and
    advances past what it consumed. *)
Definition trySplit (s : Scanner) : Scanner * option string :=
  match data s, err s with
  | EmptyString, None => (s, None)
  | _, _ =>
      let '(advance, token) :=
        ScanLines (data s) (match err s with Some _ => true | None => false end) in
      ({| r := r s; cap := cap s;
          start := start s + Z.of_nat advance;
          data := Strings.drop advance (data s); err := err s |},
       token)
  end.

(** The loop of [Scanner.Scan]. *)
Fixpoint scan (fuel : nat) (s : Scanner) : scan_result :=
  match fuel with
  | O => OutOfFuel
  | S fuel' =>
      match trySplit s with
      | (s1, Some token) => Token token s1
      | (s1, None) =>
          match err s1 with
          | Some _ =>
              Stop {| r := r s1; cap := cap s1; start := 0;
                      data := EmptyString; err := err s1 |}
          | None =>
              match makeRoom s1 with
              | TooLong s2 => Stop s2
              | Room s2 =>
                  match fill s2 0 (chunks (r s2)) (rends (r s2)) with
                  | FillBlocks => Blocks
                  | Filled s3 => scan fuel' s3
                  end
              end
          end
      end
  end.

Fixpoint total (cs : list string) : nat :=
  match cs with
  | [] => O
  | c :: cs' => (String.length c + total cs')%nat
  end.

(** Enough iterations for any contents of the reader. *)
Definition Scan (s : Scanner) : scan_result :=
  scan (total (chunks (r s)) + 2) s.

End Bufio.

(** ** core/shell_transport_custom_cmd.go

    The calls to the logger are left out: they change nothing that the
    transport's callers or the child process can see. *)

Definition echoMarkerConnected : string := "__CONNECTED__".

Definition nl : string := String Bufio.newline EmptyString.
Definition dq : string := String "034"%char EmptyString.

(** The result of an [fmt.Sprintf] call, or a plain string. *)
Inductive message : Type :=
| Sprintf (format : string) (args : list string)
| Text (s : string).

Record ShellTransportCustomCmdParams : Type := mkParams {
  ShellCommand : string;
  (* EnvOverride overrides env vars; an empty value unsets the one from
     the environment. *)
  EnvOverride : gmap string string
}.

(** What [doConnect] calls outside of this package and the Go library:
    [shell.Fields] of mvdan/sh, and the package's own [shellQuote], which
    only builds the command line shown in debug and error messages. *)
Class Externals : Type := {
  shell_Fields : string -> (string -> string) -> result (list string);
  shellQuote : string -> string
}.

(** What the operating system does during one [doConnect]: the process
    environment, the errors of the calls that can fail, what the child
    writes, and whether the timer of the final [select] fires before the
    reading goroutine gets to send. *)
Record World : Type := mkWorld {
  environ : gmap string string;
  stdinPipeErr : option error;
  stdoutPipeErr : option error;
  stderrPipeErr : option error;
  startErr : option error;
  stdinWriteErr : option error;
  procStdout : reader;
  procStderr : reader;
  timerFirst : bool
}.

(** [os.Getenv]: the empty string for a variable that is not present. *)
Definition Getenv (w : World) (key : string) : string :=
  default EmptyString (environ w !! key).

(** The closure given to [shell.Fields]. *)
Definition lookupVar (p : ShellTransportCustomCmdParams) (w : World)
    (varName : string) : string :=
  match EnvOverride p !! varName with
  | Some value => value
  | None => Getenv w varName
  end.

Record ShellConnCustomCmd : Type := mkConn {
  cmd : list string;
  stdout : reader;
  stderr : reader
}.

Record ShellConnDebugInfo : Type := mkDebugInfo {
  Message : message
}.

Record ShellConnResult : Type := mkResult {
  Conn : option ShellConnCustomCmd;
  ResErr : option error
}.

Record ShellConnUpdate : Type := mkUpdate {
  DebugInfo : option ShellConnDebugInfo;
  Result : option ShellConnResult
}.

Definition makeDebugInfo (m : message) : ShellConnDebugInfo :=
  {| Message := m |}.

(** The effects of the transport that can be observed from outside. *)
Inductive Event : Type :=
| EvSend (u : ShellConnUpdate)                 (* resCh <- u *)
| EvStart (name : string) (args : list string) (* cmd.Start() succeeded *)
| EvStdinWrite (bytes : string)
| EvStdinClose
| EvCtxCancel.

(** A computation of [doConnect]: it appends to the trace of events and
    either goes on with a value or returns [res] from the function. *)
Definition M (A : Type) : Type :=
  list Event -> list Event * (A + ShellConnResult).

Definition ret {A} (a : A) : M A := fun tr => (tr, inl a).

Definition bind {A B} (c : M A) (k : A -> M B) : M B :=
  fun tr =>
    match c tr with
    | (tr', inl a) => k a tr'
    | (tr', inr res) => (tr', inr res)
    end.

Definition emit (e : Event) : M unit := fun tr => (tr ++ [e], inl tt).

Definition return_ {A} (res : ShellConnResult) : M A := fun tr => (tr, inr res).

Declare Scope conn_scope.
Delimit Scope conn_scope with conn.
Notation "c ;; k" := (bind c (fun _ => k))
  (at level 100, k at level 200, right associativity) : conn_scope.

(** [if err != nil { res.Err = wrap(err); return res }] *)
Definition check (e : option error) (wrap : error -> error) : M unit :=
  match e with
  | Some x => return_ {| Conn := None; ResErr := Some (wrap x) |}
  | None => ret tt
  end.

(** The goroutine that looks for the marker in the child's stdout. *)
Inductive marker_wait : Type :=
| GotMarker (s : Bufio.Scanner)
| ScanFailed (e : error)
| StdoutClosed
| NeverReturns
| WaitOutOfFuel.

Fixpoint waitMarker (fuel : nat) (s : Bufio.Scanner) : marker_wait :=
  match fuel with
  | O => WaitOutOfFuel
  | S fuel' =>
      match Bufio.Scan s with
      | Bufio.Token line s' =>
          if String.eqb line echoMarkerConnected then GotMarker s'
          else waitMarker fuel' s'
      | Bufio.Stop s' =>
          match Bufio.Scanner_Err s' with
          | Some e => ScanFailed e
          | None => StdoutClosed
          end
      | Bufio.Blocks => NeverReturns
      | Bufio.OutOfFuel => WaitOutOfFuel
      end
  end.

(** What the goroutine sends on [connErrCh], if it ever does; with a nil
    error it goes on to [io.Copy] the rest of the raw stdout, which is the
    reader the scanner was reading from, into the client's pipe, and closes
    the pipe when the copy ends. *)
Inductive goroutine : Type :=
| Sends (e : option error) (passthrough : reader)
| Silent.

Definition copied (raw : reader) : reader :=
  {| chunks := chunks raw;
     rends := match rends raw with RHang => RHang | _ => REOF end |}.

Definition lookForMarker (sshCmdDebug : string) (rawStdout rawStderr : reader)
    : goroutine :=
  let scanner := Bufio.NewScanner rawStdout in
  match waitMarker (Bufio.total (chunks rawStdout) + 1) scanner with
  | GotMarker s => Sends None (copied (Bufio.r s))
  | ScanFailed e =>
      Sends (Some (Annotatef e
        "reading from stdout while waiting for connection marker" []))
        (copied (mkReader [] REOF))
  | StdoutClosed =>
      match ReadAll rawStderr with
      | Some stderrBytes =>
          Sends (Some (Errorf
            ("failed to connect using external command " +:+ dq +:+ "%s" +:+ dq +:+ ": %s")
            [sshCmdDebug; stderrBytes]))
            (copied (mkReader [] REOF))
      | None => Silent
      end
  | NeverReturns | WaitOutOfFuel => Silent
  end.

Section Transport.
Context `{Externals}.
Local Open Scope conn_scope.

(** The loop that writes the quoted fields, with a space between them, to
    [sshCmdDebugBuilder]; [i] is the index of the next field. *)
Fixpoint writeFields (i : nat) (cmdFields : list string) (builder : string)
  : string :=
  match cmdFields with
  | [] => builder
  | v :: rest =>
      let builder := match i with O => builder | S _ => builder +:+ " " end in
      writeFields (S i) rest (builder +:+ shellQuote v)
  end.

Definition sshCmdDebugOf (cmdFields : list string) : string :=
  writeFields 0 cmdFields EmptyString.

Definition doConnect_body (p : ShellTransportCustomCmdParams) (w : World)
    : M ShellConnResult :=
  (* Parse shell commands into separate fields. *)
  match shell_Fields (ShellCommand p) (lookupVar p w) with
  | Err e =>
      return_ {| Conn := None;
                 ResErr := Some (Annotatef e "parsing shell command %q"
                                           [ShellCommand p]) |}
  | Ok cmdFields =>
  match cmdFields with
  | [] => return_ {| Conn := None; ResErr := Some (Errorf "command is empty" []) |}
  | name :: args =>
      let sshCmdDebug := sshCmdDebugOf cmdFields in
      emit (EvSend {| DebugInfo := Some (makeDebugInfo (Sprintf
              "Trying to connect using external command: %q" [sshCmdDebug]));
            Result := None |}) ;;
      check (stdinPipeErr w) (fun e => Annotatef e "getting stdin pipe" []) ;;
      check (stdoutPipeErr w) (fun e => Annotatef e "getting stdout pipe" []) ;;
      check (stderrPipeErr w) (fun e => Annotatef e "getting stderr pipe" []) ;;
      check (startErr w) (fun e => Annotatef e "starting shell" []) ;;
      emit (EvStart name args) ;;
      emit (EvSend {| DebugInfo := Some (makeDebugInfo (Sprintf
              ("Command started, writing " +:+ dq +:+ "echo %s" +:+ dq
               +:+ ", waiting for it in stdout") [echoMarkerConnected]));
            Result := None |}) ;;
      check (stdinWriteErr w) (fun e => Annotatef e "writing connection marker" []) ;;
      emit (EvStdinWrite ("echo " +:+ echoMarkerConnected +:+ nl)) ;;
      (* Wait for the marker to show up in output. *)
      match lookForMarker sshCmdDebug (procStdout w) (procStderr w) with
      | Sends msg clientStdoutR =>
          if timerFirst w then
            return_ {| Conn := None;
                       ResErr := Some (New "timeout waiting for SSH connection marker") |}
          else
            check msg Trace ;;
            emit (EvSend {| DebugInfo := Some (makeDebugInfo
                    (Text "Got the marker, connected successfully"));
                  Result := None |}) ;;
            (* Got the marker, so we're done. *)
            ret {| Conn := Some {| cmd := cmdFields; stdout := clientStdoutR;
                                   stderr := procStderr w |};
                   ResErr := None |}
      | Silent =>
          return_ {| Conn := None;
                     ResErr := Some (New "timeout waiting for SSH connection marker") |}
      end
  end
  end.

(** [doConnect]: the body, then the deferred function, which sends the
    result on every way out.  Gives the events and the returned [res]. *)
Definition doConnect (p : ShellTransportCustomCmdParams) (w : World)
    : list Event * ShellConnResult :=
  match doConnect_body p w [] with
  | (tr, inl res) | (tr, inr res) =>
      (tr ++ [EvSend {| DebugInfo := None; Result := Some res |}], res)
  end.

End Transport.

(** [ShellConnCustomCmd.Close]: closes stdin, whose error if any is dropped,
    and then cancels the context, so that the external process gets
    killed. *)
Definition stdin_Close (closeErr : option error) (tr : list Event)
    : list Event * option error :=
  (tr ++ [EvStdinClose], closeErr).

Definition ctxCancel (tr : list Event) : list Event := tr ++ [EvCtxCancel].

Definition Close (closeErr : option error) (tr : list Event) : list Event :=
  let '(tr1, _) := stdin_Close closeErr tr in
  ctxCancel tr1.

(** The updates sent on [resCh], in order. *)
Definition sent (tr : list Event) : list ShellConnUpdate :=
  omap (fun e => match e with EvSend u => Some u | _ => None end) tr.

Definition started (tr : list Event) : bool :=
  existsb (fun e => match e with EvStart _ _ => true | _ => false end) tr.

(** The handshake in the words of the specification: the bytes of the
    child's stdout from the one right after the first line equal to the
    marker. *)
Fixpoint afterMarkerLine (fuel : nat) (out : string) : option string :=
  match fuel with
  | O => None
  | S n =>
      match Bufio.IndexByte out Bufio.newline with
      | Some i =>
          if String.eqb (Strings.take i out) echoMarkerConnected
          then Some (Strings.drop (S i) out)
          else afterMarkerLine n (Strings.drop (S i) out)
      | None => None
      end
  end.

Definition passthroughSpec (out : string) : option string :=
  afterMarkerLine (String.length out) out.

(** ** The shell-like expansion behind [shell.Fields] *)

Module Shell.

Inductive ParOp : Type :=
| PlainParam              (* ${X}   *)
| DefaultUnsetOrNull      (* ${X:-d} *)
| AlternateUnsetOrNull.   (* ${X:+a} *)

#[warnings="-register-all"]
Inductive WordPart : Type :=
| Lit (value : string)
| SglQuoted (value : string)
| DblQuoted (parts : list WordPart)
| ParamExp (param : string) (op : ParOp) (word : list WordPart)
| CmdSubst (src : string).

Definition Word : Type := list WordPart.

Definition UnexpectedCommand : error := SysError "unexpected command substitution".
Definition NotAWord (what : string) : error := SysError (what +:+ " is not a valid word").
Definition Unterminated (what : string) : error := SysError ("reached EOF without closing " +:+ what).
Definition Unsupported (what : string) : error := SysError ("unsupported expansion " +:+ what).

Definition isEmpty (s : string) : bool :=
  match s with EmptyString => true | _ => false end.

(** Modelled from the spec: the expansion of one word part to a string,
    of the external library mvdan/sh, which is not part of the sources.
    [${X}] is the value of X or empty, [${X:-d}] is d when X is unset or
    empty, [${X:+a}] is a when X is set and not empty; a command
    substitution is not run.  An unset variable is one the lookup function
    gives the empty string for. *)
Fixpoint literalPart (env : string -> string) (p : WordPart) : result string :=
  let literalParts :=
    fix go (ps : list WordPart) : result string :=
      match ps with
      | [] => Ok EmptyString
      | q :: qs =>
          match literalPart env q with
          | Err e => Err e
          | Ok a => match go qs with Err e => Err e | Ok b => Ok (a +:+ b) end
          end
      end in
  match p with
  | Lit v => Ok v
  | SglQuoted v => Ok v
  | DblQuoted ps => literalParts ps
  | ParamExp name op w =>
      let str := env name in
      match op with
      | PlainParam => Ok str
      | DefaultUnsetOrNull =>
          match literalParts w with
          | Err e => Err e
          | Ok arg => Ok (if isEmpty str then arg else str)
          end
      | AlternateUnsetOrNull =>
          match literalParts w with
          | Err e => Err e
          | Ok arg => Ok (if isEmpty str then str else arg)
          end
      end
  | CmdSubst _ => Err UnexpectedCommand
  end.

Fixpoint Literal (env : string -> string) (w : Word) : result string :=
  match w with
  | [] => Ok EmptyString
  | q :: qs =>
      match literalPart env q with
      | Err e => Err e
      | Ok a => match Literal env qs with Err e => Err e | Ok b => Ok (a +:+ b) end
      end
  end.

(** Field splitting of what unquoted expansions produce. *)
Record facc : Type := mkFacc {
  fields : list string;
  curField : option string;
  allowEmpty : bool
}.

Definition flush (a : facc) : facc :=
  match curField a with
  | None => a
  | Some f => {| fields := fields a ++ [f]; curField := None; allowEmpty := allowEmpty a |}
  end.

Definition addPart (a : facc) (v : string) : facc :=
  {| fields := fields a;
     curField := Some (default EmptyString (curField a) +:+ v);
     allowEmpty := allowEmpty a |}.

Definition addStarted (a : facc) (started : option string) : facc :=
  match started with
  | Some f => addPart a f
  | None => a
  end.

Definition isIFS (c : ascii) : bool :=
  Ascii.eqb c " " || Ascii.eqb c "009" || Ascii.eqb c "010".

Fixpoint splitAdd (val : string) (started : option string) (a : facc) : facc :=
  match val with
  | EmptyString => addStarted a started
  | String c val' =>
      if isIFS c then splitAdd val' None (flush (addStarted a started))
      else splitAdd val'
             (Some (default EmptyString started +:+ String c EmptyString)) a
  end.

Definition quoted (a : facc) : facc :=
  {| fields := fields a; curField := curField a; allowEmpty := true |}.

(** Modelled from the spec: the fields one word expands to (mvdan/sh, not
    part of the sources): quoted parts stay in one field, the value of an
    unquoted expansion is split at blanks, and an unquoted expansion that
    is empty gives no field at all. *)
Fixpoint wordFieldsFrom (env : string -> string) (w : Word) (a : facc)
  : result facc :=
  match w with
  | [] => Ok a
  | p :: ps =>
      match p with
      | Lit v => wordFieldsFrom env ps (addPart a v)
      | SglQuoted v => wordFieldsFrom env ps (addPart (quoted a) v)
      | DblQuoted [] => wordFieldsFrom env ps (quoted a)
      | DblQuoted _ =>
          match literalPart env p with
          | Err e => Err e
          | Ok v => wordFieldsFrom env ps (addPart (quoted a) v)
          end
      | ParamExp _ _ _ | CmdSubst _ =>
          match literalPart env p with
          | Err e => Err e
          | Ok v => wordFieldsFrom env ps (splitAdd v None a)
          end
      end
  end.

Definition wordFields (env : string -> string) (w : Word) : result (list string) :=
  match wordFieldsFrom env w {| fields := []; curField := None; allowEmpty := false |} with
  | Err e => Err e
  | Ok a =>
      let a' := flush a in
      Ok (match fields a', allowEmpty a' with
          | [], true => [EmptyString]
          | fs, _ => fs
          end)
  end.

Fixpoint expandFields (env : string -> string) (ws : list Word) : result (list string) :=
  match ws with
  | [] => Ok []
  | w :: ws' =>
      match wordFields env w with
      | Err e => Err e
      | Ok fs =>
          match expandFields env ws' with
          | Err e => Err e
          | Ok fs' => Ok (fs ++ fs')
          end
      end
  end.

(** *** Reading the words of a command line *)

Inductive ctx : Type :=
| Top      (* a word of the command line: ends at a blank *)
| Brace    (* the word of ${X:-w} or ${X:+w}: ends at the closing brace *)
| Dbl.     (* inside double quotes *)

Definition inQuotes (c : ctx) : bool :=
  match c with Dbl => true | _ => false end.

Definition isNameChar (c : ascii) : bool :=
  let n := N_of_ascii c in
  ((65 <=? n)%N && (n <=? 90)%N) || ((97 <=? n)%N && (n <=? 122)%N)
  || ((48 <=? n)%N && (n <=? 57)%N) || (n =? 95)%N.

Definition isOperator (c : ascii) : bool :=
  existsb (Ascii.eqb c) [";"; "|"; "&"; "<"; ">"; "("; ")"]%char.

(** The text up to the first [stop], and what follows it. *)
Fixpoint upTo (stop : ascii) (s : string) : option (string * string) :=
  match s with
  | EmptyString => None
  | String c s' =>
      if Ascii.eqb c stop then Some (EmptyString, s')
      else match upTo stop s' with
           | Some (a, b) => Some (String c a, b)
           | None => None
           end
  end.

Fixpoint spanName (s : string) : string * string :=
  match s with
  | EmptyString => (EmptyString, EmptyString)
  | String c s' =>
      if isNameChar c then let '(a, b) := spanName s' in (String c a, b)
      else (EmptyString, s)
  end.

Definition withLit (lit : string) (ps : list WordPart) : list WordPart :=
  if isEmpty lit then ps else Lit lit :: ps.

(** Modelled from the spec: the syntax of the command string read by
    mvdan/sh (not part of the sources): words separated by blanks, single
    and double quotes, and the expansions ${X}, ${X:-d} and ${X:+a}; a
    command substitution is read but is not a thing that expands, and a
    control operator is not a word.  Gives the parts of one word and the
    rest of the input. *)
Fixpoint parseParts (fuel : nat) (c : ctx) (lit : string) (s : string)
  : result (list WordPart * string) :=
  match fuel with
  | O => Err (Unterminated "input")
  | S n =>
      let more (p : WordPart) (rest : string) :=
        match parseParts n c EmptyString rest with
        | Err e => Err e
        | Ok (ps, rest') => Ok (withLit lit (p :: ps), rest')
        end in
      match s with
      | EmptyString =>
          match c with
          | Top => Ok (withLit lit [], EmptyString)
          | Brace => Err (Unterminated "brace")
          | Dbl => Err (Unterminated "quote")
          end
      | String a s' =>
          let quote := Ascii.eqb a "034" in
          let ended :=
            match c with
            | Top => if isIFS a then Some s else None
            | Brace => if Ascii.eqb a "}" then Some s' else None
            | Dbl => if quote then Some s' else None
            end in
          match ended with
          | Some rest => Ok (withLit lit [], rest)
          | None =>
              if Ascii.eqb a "'" && negb (inQuotes c) then
                match upTo "'" s' with
                | Some (q, rest) => more (SglQuoted q) rest
                | None => Err (Unterminated "quote")
                end
              else if quote then
                match parseParts n Dbl EmptyString s' with
                | Err e => Err e
                | Ok (ps, rest) => more (DblQuoted ps) rest
                end
              else if Ascii.eqb a "`" then
                match upTo "`" s' with
                | Some (src, rest) => more (CmdSubst src) rest
                | None => Err (Unterminated "quote")
                end
              else if Ascii.eqb a "$" then
                match s' with
                | String "(" s'' =>
                    match upTo ")" s'' with
                    | Some (src, rest) => more (CmdSubst src) rest
                    | None => Err (Unterminated "paren")
                    end
                | String "{" s'' =>
                    let '(name, after) := spanName s'' in
                    match after with
                    | String "}" rest => more (ParamExp name PlainParam []) rest
                    | String ":" (String "-" w) =>
                        match parseParts n Brace EmptyString w with
                        | Err e => Err e
                        | Ok (ps, rest) => more (ParamExp name DefaultUnsetOrNull ps) rest
                        end
                    | String ":" (String "+" w) =>
                        match parseParts n Brace EmptyString w with
                        | Err e => Err e
                        | Ok (ps, rest) => more (ParamExp name AlternateUnsetOrNull ps) rest
                        end
                    | _ => Err (Unsupported name)
                    end
                | _ => Err (Unsupported "$")
                end
              else if isOperator a && negb (inQuotes c) then
                Err (NotAWord (String a EmptyString))
              else parseParts n c (lit +:+ String a EmptyString) s'
          end
      end
  end.

Fixpoint dropBlanks (s : string) : string :=
  match s with
  | String c s' => if isIFS c then dropBlanks s' else s
  | EmptyString => s
  end.

Fixpoint parseWords (fuel : nat) (s : string) : result (list Word) :=
  match fuel with
  | O => Err (Unterminated "input")
  | S n =>
      match dropBlanks s with
      | EmptyString => Ok []
      | s1 =>
          match parseParts (String.length s1 + 1) Top EmptyString s1 with
          | Err e => Err e
          | Ok (w, rest) =>
              match parseWords n rest with
              | Err e => Err e
              | Ok ws => Ok (w :: ws)
              end
          end
      end
  end.

(** Modelled from the spec: [shell.Fields] of mvdan/sh (not part of the
    sources), the command string read as words and the words expanded to
    fields, with [env] to look variables up. *)
Definition Fields (s : string) (env : string -> string) : result (list string) :=
  match parseWords (String.length s + 1) s with
  | Err e => Err e
  | Ok ws => expandFields env ws
  end.

End Shell.

(** The package's [shellQuote] is not part of the sources, and the
    properties of the transport are proved for any such function.  The
    concrete runs below use commands made of plain words (letters, digits,
    slashes), which quoting leaves as they are; so does this function, which
    then gives the command line as the messages show it. *)
Definition plainQuote (s : string) : string := s.

#[export] Instance modelled : Externals :=
  {| shell_Fields := Shell.Fields; shellQuote := plainQuote |}.

(** ** Concrete runs *)

(** A world in which every call succeeds and the child writes [out]. *)
Definition quietWorld (out : list string) (e : rend) : World :=
  {| environ := ∅;
     stdinPipeErr := None; stdoutPipeErr := None; stderrPipeErr := None;
     startErr := None; stdinWriteErr := None;
     procStdout := {| chunks := out; rends := e |};
     procStderr := {| chunks := []; rends := REOF |};
     timerFirst := false |}.

Definition shParams : ShellTransportCustomCmdParams :=
  {| ShellCommand := "/bin/sh"; EnvOverride := ∅ |}.


(** The child stays silent. *)
Definition silentWorld : World := quietWorld [] RHang.


(** FOO is set in the process environment and emptied by the override. *)
Definition fooWorld : World :=
  {| environ := {[ "FOO" := "123" ]};
     stdinPipeErr := None; stdoutPipeErr := None; stderrPipeErr := None;
     startErr := None; stdinWriteErr := None;
     procStdout := {| chunks := []; rends := REOF |};
     procStderr := {| chunks := []; rends := REOF |};
     timerFirst := false |}.

Definition fooParams : ShellTransportCustomCmdParams :=
  {| ShellCommand := "${FOO:-sh}";
     EnvOverride := {[ "FOO" := EmptyString ]} |}.

Definition emptyParams : ShellTransportCustomCmdParams :=
  {| ShellCommand := EmptyString; EnvOverride := ∅ |}.

(** ** Notions used by the properties *)

Definition isDebugOnly (u : ShellConnUpdate) : Prop :=
  is_Some (DebugInfo u) /\ Result u = None.

Definition timedOut : ShellConnResult :=
  {| Conn := None;
     ResErr := Some (New "timeout waiting for SSH connection marker") |}.

Definition commandIsEmpty : ShellConnResult :=
  {| Conn := None; ResErr := Some (Errorf "command is empty" []) |}.


(** What is left to read, and one more while no error has been seen. *)
Definition toRead (s : Bufio.Scanner) : nat :=
  (Bufio.total (chunks (Bufio.r s))
   + match Bufio.err s with None => 1 | Some _ => 0 end)%nat.

(** The bytes that are not yet processed: buffered, or left to read. *)
Definition pending (s : Bufio.Scanner) : nat :=
  (String.length (Bufio.data s) + Bufio.total (chunks (Bufio.r s)))%nat.

(** The scanner's buffer is well formed. *)
Definition bufferOk (s : Bufio.Scanner) : Prop :=
  (0 <= Bufio.start s)%Z /\ (Bufio.send s <= Bufio.cap s)%Z.

(** The bytes the scanner has not yet given out as lines: those in its
    buffer, then those still to be read. *)
Definition unread (s : Bufio.Scanner) : string :=
  Bufio.data s +:+ bytes_of (Bufio.r s).



(** ** Notions used by the further properties *)

(** A kind that is none of the three of the package. *)
Definition unknownKind (m : TransportMode) : Prop :=
  kind m <> TransportModeKindSSHLib
  /\ kind m <> TransportModeKindSSHBin
  /\ kind m <> TransportModeKindCustom.

(** The processes started, and what was written to the child's stdin. *)
Definition starts (tr : list Event) : list (string * list string) :=
  omap (fun e => match e with EvStart name args => Some (name, args) | _ => None end) tr.

Definition stdinWrites (tr : list Event) : list string :=
  omap (fun e => match e with EvStdinWrite bytes => Some bytes | _ => None end) tr.

(** The error of the first step that fails between the expansion of the
    command and the start of the child, as [doConnect] wraps it. *)
Definition setupError (w : World) : option error :=
  match stdinPipeErr w, stdoutPipeErr w, stderrPipeErr w, startErr w with
  | Some e, _, _, _ => Some (Annotatef e "getting stdin pipe" [])
  | None, Some e, _, _ => Some (Annotatef e "getting stdout pipe" [])
  | None, None, Some e, _ => Some (Annotatef e "getting stderr pipe" [])
  | None, None, None, Some e => Some (Annotatef e "starting shell" [])
  | None, None, None, None => None
  end.

Definition firstDebug (sshCmdDebug : string) : ShellConnUpdate :=
  {| DebugInfo := Some (makeDebugInfo (Sprintf
       "Trying to connect using external command: %q" [sshCmdDebug]));
     Result := None |}.

Definition failedWith (e : error) : ShellConnResult :=
  {| Conn := None; ResErr := Some e |}.

Definition finalUpdate (res : ShellConnResult) : ShellConnUpdate :=
  {| DebugInfo := None; Result := Some res |}.

(** Every write to stdin in the trace comes after a start; [seen] tells
    whether a start came before the trace. *)
Fixpoint writesAfterStart (seen : bool) (tr : list Event) : bool :=
  match tr with
  | [] => true
  | EvStart _ _ :: rest => writesAfterStart true rest
  | EvStdinWrite _ :: rest => seen && writesAfterStart seen rest
  | _ :: rest => writesAfterStart seen rest
  end.

(** The scanner has given out its last line: nothing buffered, and the end
    of the input seen. *)
Definition finished (s : Bufio.Scanner) : Prop :=
  Bufio.data s = EmptyString /\ Bufio.err s <> None.

(** The scanner's buffer is well formed, no read of the stream under it is
    empty, and an end of the input that the scanner has seen left nothing
    to read. *)
Definition steady (s : Bufio.Scanner) : Prop :=
  bufferOk s
  /\ Forall (fun c => c <> EmptyString) (chunks (Bufio.r s))
  /\ (Bufio.err s <> None -> chunks (Bufio.r s) = []).

(** A text made of whole lines. *)
Definition wholeLines (b : string) : Prop :=
  b = EmptyString \/ exists b', b = b' +:+ nl.

(** What reading the child's stdout line by line comes to. *)
Inductive lineOutcome : Type :=
| MarkerFound
| OutputClosed
| ReadFailed (e : error)
| OutputHangs.

(** The end of the output, after a last piece [last] without a newline. *)
Definition atEndOf (e : rend) (last : string) : lineOutcome :=
  match e with
  | RHang => OutputHangs
  | REOF =>
      if String.eqb (Bufio.dropCR last) echoMarkerConnected
      then MarkerFound else OutputClosed
  | RErr x =>
      if String.eqb (Bufio.dropCR last) echoMarkerConnected
      then MarkerFound else ReadFailed x
  end.

(** The outcome for an output [out] that ends as [e] says, read one line
    after the other, each line short enough for the scanner's buffer. *)
Inductive lineScan : string -> rend -> lineOutcome -> Prop :=
| lineScan_last (out : string) (e : rend) :
    Bufio.IndexByte out Bufio.newline = None ->
    (Z.of_nat (String.length out) < Bufio.MaxScanTokenSize)%Z ->
    lineScan out e (atEndOf e out)
| lineScan_marker (out : string) (e : rend) (i : nat) :
    Bufio.IndexByte out Bufio.newline = Some i ->
    (Z.of_nat i < Bufio.MaxScanTokenSize)%Z ->
    Bufio.dropCR (Strings.take i out) = echoMarkerConnected ->
    lineScan out e MarkerFound
| lineScan_skip (out : string) (e : rend) (i : nat) (o : lineOutcome) :
    Bufio.IndexByte out Bufio.newline = Some i ->
    (Z.of_nat i < Bufio.MaxScanTokenSize)%Z ->
    Bufio.dropCR (Strings.take i out) <> echoMarkerConnected ->
    lineScan (Strings.drop (S i) out) e o ->
    lineScan out e o.

(** The stream under the scanner ends as [e] says and has no empty read,
    or its end has been seen already. *)
Definition ending (e : rend) (s : Bufio.Scanner) : Prop :=
  match Bufio.err s with
  | None =>
      rends (Bufio.r s) = e
      /\ Forall (fun c => c <> EmptyString) (chunks (Bufio.r s))
  | Some Bufio.AtEOF => e = REOF /\ chunks (Bufio.r s) = []
  | Some (Bufio.Failed x) => e = RErr x /\ chunks (Bufio.r s) = []
  end.

(** Every step before the handshake succeeds. *)
Definition handshakeReached `{Externals}
    (p : ShellTransportCustomCmdParams) (w : World) : Prop :=
  (exists name args,
     shell_Fields (ShellCommand p) (lookupVar p w) = Ok (name :: args))
  /\ setupError w = None /\ stdinWriteErr w = None.

Definition crlf : string := String Bufio.cr nl.

(** The output begins with as many bytes as the scanner's largest buffer
    holds, and no newline among them. *)
Definition firstLineTooLong (out : string) : Prop :=
  Bufio.IndexByte (Strings.take (Z.to_nat Bufio.MaxScanTokenSize) out)
    Bufio.newline = None
  /\ (Z.to_nat Bufio.MaxScanTokenSize <= String.length out)%nat.

(** The scanner is still collecting the first line of such an output. *)
Definition growing (s : Bufio.Scanner) : Prop :=
  Bufio.err s = None /\ Bufio.start s = 0%Z
  /\ (Z.of_nat (String.length (Bufio.data s)) <= Bufio.cap s)%Z
  /\ (Bufio.cap s <= Bufio.MaxScanTokenSize)%Z
  /\ Forall (fun c => c <> EmptyString) (chunks (Bufio.r s))
  /\ firstLineTooLong (unread s).

Fixpoint repeatByte (c : ascii) (n : nat) : string :=
  match n with
  | O => EmptyString
  | S n' => String c (repeatByte c n')
  end.

(** The stdout pipe of the child cannot be made. *)
Definition noPipeWorld : World :=
  {| environ := ∅;
     stdinPipeErr := None;
     stdoutPipeErr := Some (SysError "too many open files");
     stderrPipeErr := None;
     startErr := Some (SysError "no such file or directory");
     stdinWriteErr := None;
     procStdout := {| chunks := []; rends := REOF |};
     procStderr := {| chunks := []; rends := REOF |};
     timerFirst := false |}.

(** The child is started and is gone before the marker is written to it. *)
Definition noWriteWorld : World :=
  {| environ := ∅;
     stdinPipeErr := None; stdoutPipeErr := None; stderrPipeErr := None;
     startErr := None;
     stdinWriteErr := Some (SysError "broken pipe");
     procStdout := {| chunks := []; rends := REOF |};
     procStderr := {| chunks := []; rends := REOF |};
     timerFirst := false |}.

(** * Properties *)

(** ** Strings *)

Lemma app_String (a : ascii) (p s : string) :
  String a p +:+ s = String a (p +:+ s).
Proof. reflexivity. Qed.

Lemma app_empty (s : string) : EmptyString +:+ s = s.
Proof. reflexivity. Qed.

Lemma app_empty_r (s : string) : s +:+ EmptyString = s.
Proof. induction s as [|a s IH]; [done|]. by rewrite app_String, IH. Qed.

Lemma HasPrefix_app (p s : string) : Strings.HasPrefix (p +:+ s) p = true.
Proof.
  induction p as [|a p IH]; simpl; [done|].
  by rewrite Ascii.eqb_refl.
Qed.

Lemma HasPrefix_inv (s p : string) :
  Strings.HasPrefix s p = true ->
  s = p +:+ Strings.drop (String.length p) s.
Proof.
  revert s. induction p as [|a p IH]; intros s; simpl; [done|].
  destruct s as [|b s]; [done|].
  destruct (Ascii.eqb a b) eqn:E; [|done].
  apply Ascii.eqb_eq in E as ->.
  intros Hp. rewrite app_String. f_equal. by apply IH.
Qed.

Lemma drop_app_length (p s : string) :
  Strings.drop (String.length p) (p +:+ s) = s.
Proof. induction p as [|a p IH]; simpl; done. Qed.

Lemma TrimPrefix_app (p s : string) : Strings.TrimPrefix (p +:+ s) p = s.
Proof.
  unfold Strings.TrimPrefix. by rewrite HasPrefix_app, drop_app_length.
Qed.

Lemma eqb_false_ne (a b : string) : String.eqb a b = false -> a <> b.
Proof. intros E ->. by rewrite String.eqb_refl in E. Qed.

(** ** Transport modes *)

Lemma ParseTransportMode_custom (cmd : string) :
  ParseTransportMode ("custom:" +:+ cmd) = Ok (NewTransportModeCustom cmd).
Proof.
  unfold ParseTransportMode.
  change (TransportModeKindCustom +:+ ":") with "custom:".
  rewrite (HasPrefix_app "custom:" cmd), (TrimPrefix_app "custom:" cmd).
  done.
Qed.

(** C3: [ParseTransportMode] accepts [ssh-lib], [ssh-bin] and every string
    that starts with [custom:], the rest of which becomes the custom
    command, and nothing else: any other string gives an error and no
    transport mode. *)
Theorem ParseTransportMode_accepts_exactly (spec : string) :
  match ParseTransportMode spec with
  | Ok m =>
      (spec = "ssh-lib" /\ m = mkTransportMode "ssh-lib" EmptyString)
      \/ (spec = "ssh-bin" /\ m = mkTransportMode "ssh-bin" EmptyString)
      \/ (exists cmd, spec = "custom:" +:+ cmd /\ m = mkTransportMode "custom" cmd)
  | Err e =>
      e = Errorf "invalid transport mode %q" [spec]
      /\ spec <> "ssh-lib" /\ spec <> "ssh-bin"
      /\ forall cmd, spec <> "custom:" +:+ cmd
  end.
Proof.
  unfold ParseTransportMode.
  change (TransportModeKindCustom +:+ ":") with "custom:".
  destruct (String.eqb spec TransportModeKindSSHLib) eqn:E1.
  { apply String.eqb_eq in E1. by left. }
  destruct (String.eqb spec TransportModeKindSSHBin) eqn:E2.
  { apply String.eqb_eq in E2. right; by left. }
  destruct (Strings.HasPrefix spec "custom:") eqn:E3.
  - right; right. exists (Strings.TrimPrefix spec "custom:"). split; [|done].
    unfold Strings.TrimPrefix. rewrite E3. by apply HasPrefix_inv.
  - repeat split.
    + by apply eqb_false_ne.
    + by apply eqb_false_ne.
    + intros cmd ->. by rewrite (HasPrefix_app "custom:" cmd) in E3.
Qed.

(** C4: the custom shell command of an [ssh-bin] mode is the default ssh
    command of the specification, that of an [ssh-lib] mode is empty, and
    that of a [custom] mode is the stored command. *)
Theorem CustomShellCommand_by_kind (stored : string) :
  CustomShellCommand (mkTransportMode "ssh-bin" stored)
    = Some "ssh -o 'BatchMode=yes' ${NLPORT:+-p ${NLPORT}} ${NLUSER:+${NLUSER}@}${NLHOST} /bin/sh"
  /\ CustomShellCommand (mkTransportMode "ssh-lib" stored) = Some EmptyString
  /\ CustomShellCommand (mkTransportMode "custom" stored) = Some stored
  /\ CustomShellCommand NewTransportModeSSHBin = Some DefaultSSHShellCommand
  /\ CustomShellCommand NewTransportModeSSHLib = Some EmptyString
  /\ CustomShellCommand (NewTransportModeCustom stored) = Some stored.
Proof. repeat split. Qed.

(** C7: printing a parsed transport mode gives back the string it was
    parsed from, and parsing the printed form of a mode made by one of the
    three constructors gives back that mode: the same kind and the same
    custom command. *)
Theorem ParseTransportMode_String_roundtrip (s : string) (m : TransportMode)
    (Hparse : ParseTransportMode s = Ok m) :
  TransportMode_String m = s
  /\ ParseTransportMode (TransportMode_String NewTransportModeSSHLib)
       = Ok NewTransportModeSSHLib
  /\ ParseTransportMode (TransportMode_String NewTransportModeSSHBin)
       = Ok NewTransportModeSSHBin
  /\ forall cmd,
       ParseTransportMode (TransportMode_String (NewTransportModeCustom cmd))
       = Ok (NewTransportModeCustom cmd).
Proof.
  split; [|split; [reflexivity|split; [reflexivity|]]].
  - revert Hparse. unfold ParseTransportMode.
    change (TransportModeKindCustom +:+ ":") with "custom:".
    destruct (String.eqb s TransportModeKindSSHLib) eqn:E1.
    { apply String.eqb_eq in E1 as ->. by intros [= <-]. }
    destruct (String.eqb s TransportModeKindSSHBin) eqn:E2.
    { apply String.eqb_eq in E2 as ->. by intros [= <-]. }
    destruct (Strings.HasPrefix s "custom:") eqn:E3; [|done].
    intros [= <-]. unfold Strings.TrimPrefix. rewrite E3.
    symmetry. apply (HasPrefix_inv s "custom:" E3).
  - intros cmd. apply (ParseTransportMode_custom cmd).
Qed.

Lemma ParseTransportMode_String_roundtrip_witness :
  ParseTransportMode "custom:ssh ${NLHOST} /bin/sh"
    = Ok (mkTransportMode "custom" "ssh ${NLHOST} /bin/sh")
  /\ TransportMode_String (mkTransportMode "custom" "ssh ${NLHOST} /bin/sh")
     = "custom:ssh ${NLHOST} /bin/sh".
Proof.
  split; [reflexivity|].
  apply (ParseTransportMode_String_roundtrip
           "custom:ssh ${NLHOST} /bin/sh"
           (mkTransportMode "custom" "ssh ${NLHOST} /bin/sh")).
  reflexivity.
Defined.

(** ** The scanner always comes to an end *)

Lemma length_app (a b : string) :
  String.length (a +:+ b) = (String.length a + String.length b)%nat.
Proof. induction a as [|c a IH]; [done|]. rewrite app_String. simpl. by rewrite IH. Qed.

Lemma length_take_drop (k : nat) (c : string) :
  (String.length (Strings.take k c) + String.length (Strings.drop k c))%nat
  = String.length c.
Proof.
  revert c. induction k as [|k IH]; intros [|a c]; simpl; auto.
Qed.

Lemma length_drop (k : nat) (c : string) :
  String.length (Strings.drop k c) = (String.length c - k)%nat.
Proof. revert c. induction k as [|k IH]; intros [|a c]; simpl; auto with lia. Qed.

Lemma IndexByte_lt (d : string) (c : ascii) (i : nat) :
  Bufio.IndexByte d c = Some i -> (i < String.length d)%nat.
Proof.
  revert i. induction d as [|a d IH]; intros i; simpl; [done|].
  destruct (Ascii.eqb a c).
  - intros [= <-]. lia.
  - destruct (Bufio.IndexByte d c) as [j|]; [|done].
    intros [= <-]. specialize (IH j eq_refl). lia.
Qed.

Lemma ScanLines_advance (d : string) (atEOF : bool) (adv : nat) (tok : option string) :
  Bufio.ScanLines d atEOF = (adv, tok) ->
  match tok with
  | Some _ => (1 <= adv <= String.length d)%nat
  | None => adv = O
  end.
Proof.
  unfold Bufio.ScanLines.
  destruct (Bufio.IndexByte d Bufio.newline) as [i|] eqn:Ei.
  - apply IndexByte_lt in Ei.
    destruct d, atEOF; intros [= <- <-]; simpl in *; lia.
  - destruct d as [|a d], atEOF; intros [= <- <-]; simpl; lia.
Qed.

Lemma err_setErr (s : Bufio.Scanner) (e : Bufio.serr) :
  Bufio.err s = None -> Bufio.err (Bufio.setErr s e) = Some e.
Proof. unfold Bufio.setErr. by intros ->. Qed.

Lemma setErr_same (s : Bufio.Scanner) (e : Bufio.serr) :
  Bufio.r (Bufio.setErr s e) = Bufio.r s
  /\ Bufio.data (Bufio.setErr s e) = Bufio.data s.
Proof. unfold Bufio.setErr. by destruct (Bufio.err s) as [[|]|]. Qed.

Lemma toRead_setErr (s : Bufio.Scanner) (e : Bufio.serr) :
  Bufio.err s = None ->
  toRead (Bufio.setErr s e) = Bufio.total (chunks (Bufio.r s)).
Proof.
  intros Herr. unfold toRead. rewrite err_setErr by done.
  destruct (setErr_same s e) as [-> _]. lia.
Qed.

Lemma pending_setErr (s : Bufio.Scanner) (e : Bufio.serr) :
  pending (Bufio.setErr s e) = pending s.
Proof. unfold pending. by destruct (setErr_same s e) as [-> ->]. Qed.

Lemma fill_progress (s s3 : Bufio.Scanner) (loop : Z) (cs : list string) (e : rend) :
  Bufio.err s = None ->
  Bufio.fill s loop cs e = Bufio.Filled s3 ->
  (toRead s3 < Bufio.total cs + 1)%nat
  /\ (pending s3 <= String.length (Bufio.data s) + Bufio.total cs)%nat.
Proof.
  intros Herr. revert loop.
  induction cs as [|c cs IH]; intros loop; simpl.
  - unfold Read; simpl.
    destruct e as [|x|]; [| |done]; intros [= <-];
      rewrite toRead_setErr, pending_setErr by done;
      unfold pending; simpl; lia.
  - unfold Read; simpl.
    set (room := Z.to_nat (Bufio.cap s - Bufio.send s)).
    pose proof (length_take_drop room c) as Hlen.
    destruct (Strings.take room c) as [|a t] eqn:Et.
    + destruct c as [|a c].
      * simpl. destruct (Bufio.maxConsecutiveEmptyReads <? loop + 1)%Z.
        -- intros [= <-].
           rewrite toRead_setErr, pending_setErr by done.
           unfold pending. destruct room; simpl; lia.
        -- intros Hf. specialize (IH _ Hf). simpl. lia.
      * intros [= <-].
        rewrite toRead_setErr, pending_setErr by done.
        unfold pending. simpl in *.
        destruct (Strings.drop room (String a c)); simpl in *; lia.
    + intros [= <-]. unfold toRead, pending. simpl. rewrite Herr.
      rewrite length_app. simpl in *.
      destruct (Strings.drop room c); simpl in *; lia.
Qed.

Lemma trySplit_same (s s1 : Bufio.Scanner) (tok : option string) :
  Bufio.trySplit s = (s1, tok) ->
  Bufio.r s1 = Bufio.r s /\ Bufio.err s1 = Bufio.err s
  /\ match tok with
     | Some _ => (pending s1 < pending s)%nat
     | None => Bufio.data s1 = Bufio.data s
     end.
Proof.
  unfold Bufio.trySplit.
  destruct (Bufio.ScanLines (Bufio.data s)
              (match Bufio.err s with Some _ => true | None => false end))
    as [adv t] eqn:Es.
  pose proof (ScanLines_advance _ _ _ _ Es) as Hadv.
  assert (forall s0,
    s0 = {| Bufio.r := Bufio.r s; Bufio.cap := Bufio.cap s;
            Bufio.start := (Bufio.start s + Z.of_nat adv)%Z;
            Bufio.data := Strings.drop adv (Bufio.data s);
            Bufio.err := Bufio.err s |} ->
    Bufio.r s0 = Bufio.r s /\ Bufio.err s0 = Bufio.err s
    /\ match t with
       | Some _ => (pending s0 < pending s)%nat
       | None => Bufio.data s0 = Bufio.data s
       end) as Hgen.
  { intros s0 ->. simpl. repeat split. destruct t.
    - unfold pending. simpl. rewrite length_drop. lia.
    - by subst adv. }
  destruct (Bufio.data s) eqn:Ed, (Bufio.err s) eqn:Ee;
    intros [= <- <-]; try (by apply Hgen).
  by rewrite Ed.
Qed.

Lemma makeRoom_same (s s2 : Bufio.Scanner) :
  Bufio.makeRoom s = Bufio.Room s2 ->
  Bufio.r s2 = Bufio.r s /\ Bufio.err s2 = Bufio.err s
  /\ Bufio.data s2 = Bufio.data s.
Proof.
  unfold Bufio.makeRoom.
  destruct ((0 <? Bufio.start s)%Z && _);
    match goal with |- context [(Bufio.send ?x =? Bufio.cap ?x)%Z] =>
      destruct (Bufio.send x =? Bufio.cap x)%Z end;
    try destruct (Bufio.MaxScanTokenSize <=? _)%Z;
    intros [= <-]; done.
Qed.

(** [scan] stops by itself before its fuel ends. *)
Lemma scan_fuel_enough (fuel : nat) (s : Bufio.Scanner) :
  (toRead s < fuel)%nat -> Bufio.scan fuel s <> Bufio.OutOfFuel.
Proof.
  revert s. induction fuel as [|fuel IH]; intros s Hlt; [lia|].
  simpl. destruct (Bufio.trySplit s) as [s1 [tok|]] eqn:Et; [done|].
  destruct (trySplit_same _ _ _ Et) as (Hr & He & _).
  destruct (Bufio.err s1) eqn:Ee1; [done|].
  destruct (Bufio.makeRoom s1) as [s2|s2] eqn:Em; [|done].
  destruct (makeRoom_same _ _ Em) as (Hr2 & He2 & _).
  destruct (Bufio.fill _ _ _ _) as [s3|] eqn:Ef; [|done].
  apply IH.
  apply fill_progress in Ef as [Hp _]; [|congruence].
  unfold toRead in Hlt. rewrite Hr2, Hr in Hp.
  rewrite <- He in Hlt. lia.
Qed.

Lemma Scan_total (s : Bufio.Scanner) : Bufio.Scan s <> Bufio.OutOfFuel.
Proof.
  apply scan_fuel_enough. unfold toRead.
  destruct (Bufio.err s); lia.
Qed.

(** A token takes at least one byte out of what is pending. *)
Lemma scan_token_pending (fuel : nat) (s s' : Bufio.Scanner) (line : string) :
  Bufio.scan fuel s = Bufio.Token line s' -> (pending s' < pending s)%nat.
Proof.
  revert s. induction fuel as [|fuel IH]; intros s; [done|].
  simpl. destruct (Bufio.trySplit s) as [s1 [tok|]] eqn:Et.
  - intros [= <- <-]. by destruct (trySplit_same _ _ _ Et) as (_ & _ & Hp).
  - destruct (trySplit_same _ _ _ Et) as (Hr & He & Hd).
    destruct (Bufio.err s1) eqn:Ee1; [done|].
    destruct (Bufio.makeRoom s1) as [s2|s2] eqn:Em; [|done].
    destruct (makeRoom_same _ _ Em) as (Hr2 & He2 & Hd2).
    destruct (Bufio.fill _ _ _ _) as [s3|] eqn:Ef; [|done].
    intros Hs. apply IH in Hs.
    apply fill_progress in Ef as [_ Hp]; [|congruence].
    unfold pending in *. rewrite Hd2, Hd, Hr2, Hr in Hp. lia.
Qed.

Lemma waitMarker_fuel_enough (fuel : nat) (s : Bufio.Scanner) :
  (pending s < fuel)%nat -> waitMarker fuel s <> WaitOutOfFuel.
Proof.
  revert s. induction fuel as [|fuel IH]; intros s Hlt; [lia|].
  simpl. destruct (Bufio.Scan s) as [line s'|s'| |] eqn:Es.
  - destruct (String.eqb line echoMarkerConnected); [done|].
    apply IH. apply scan_token_pending in Es. lia.
  - by destruct (Bufio.Scanner_Err s').
  - done.
  - by apply Scan_total in Es.
Qed.

(** The goroutine's loop is never cut short by the bound on its steps: it
    finds the marker, or ends with the stream, or waits on a read for
    ever. *)
Lemma waitMarker_total (rawStdout : reader) :
  waitMarker (Bufio.total (chunks rawStdout) + 1) (Bufio.NewScanner rawStdout)
  <> WaitOutOfFuel.
Proof. apply waitMarker_fuel_enough. unfold pending. simpl. lia. Qed.

(** ** A stdout that closes without the marker *)

Lemma app_assoc_string (a b c : string) : (a +:+ b) +:+ c = a +:+ (b +:+ c).
Proof. induction a as [|x a IH]; [done|]. by rewrite !app_String, IH. Qed.

Lemma take_drop (k : nat) (c : string) : Strings.take k c +:+ Strings.drop k c = c.
Proof.
  revert c. induction k as [|k IH]; intros [|a c]; simpl; try done.
  by rewrite app_String, IH.
Qed.

Lemma length_take_le (k : nat) (c : string) :
  (String.length (Strings.take k c) <= k)%nat.
Proof. revert c. induction k as [|k IH]; intros [|a c]; simpl; auto with lia.
  specialize (IH c). lia. Qed.

Lemma take_app_le (i : nat) (a b : string) :
  (i <= String.length a)%nat -> Strings.take i (a +:+ b) = Strings.take i a.
Proof.
  revert a. induction i as [|i IH]; intros [|x a]; simpl; try done; try lia.
  intros Hle. rewrite ?app_String; simpl. rewrite IH; [done|lia].
Qed.

Lemma drop_app_le (i : nat) (a b : string) :
  (i <= String.length a)%nat -> Strings.drop i (a +:+ b) = Strings.drop i a +:+ b.
Proof.
  revert a. induction i as [|i IH]; intros [|x a]; simpl; try done; try lia.
  intros Hle. rewrite ?app_String; simpl. rewrite IH; [done|lia].
Qed.

Lemma IndexByte_app_Some (a b : string) (c : ascii) (i : nat) :
  Bufio.IndexByte a c = Some i -> Bufio.IndexByte (a +:+ b) c = Some i.
Proof.
  revert i. induction a as [|x a IH]; intros i; simpl; [done|].
  rewrite ?app_String; simpl. destruct (Ascii.eqb x c); [done|].
  destruct (Bufio.IndexByte a c) as [j|]; [|done].
  intros [= <-]. by rewrite (IH j).
Qed.

Lemma IndexByte_app_None (a b : string) (c : ascii) :
  Bufio.IndexByte a c = None ->
  match Bufio.IndexByte (a +:+ b) c with
  | Some i => (String.length a <= i)%nat
  | None => True
  end.
Proof.
  induction a as [|x a IH]; simpl.
  - intros _. rewrite app_empty. destruct (Bufio.IndexByte b c); [lia|done].
  - rewrite ?app_String; simpl. destruct (Ascii.eqb x c); [done|].
    destruct (Bufio.IndexByte a c) as [j|]; [done|].
    intros _. specialize (IH eq_refl).
    destruct (Bufio.IndexByte (a +:+ b) c); [lia|done].
Qed.

Lemma bytes_of_cons (c : string) (cs : list string) (e : rend) :
  bytes_of {| chunks := c :: cs; rends := e |}
  = c +:+ bytes_of {| chunks := cs; rends := e |}.
Proof. reflexivity. Qed.



Lemma trySplit_newline (s : Bufio.Scanner) (i : nat) :
  Bufio.IndexByte (Bufio.data s) Bufio.newline = Some i ->
  Bufio.trySplit s
  = ({| Bufio.r := Bufio.r s; Bufio.cap := Bufio.cap s;
        Bufio.start := (Bufio.start s + Z.of_nat (S i))%Z;
        Bufio.data := Strings.drop (S i) (Bufio.data s);
        Bufio.err := Bufio.err s |},
     Some (Bufio.dropCR (Strings.take i (Bufio.data s)))).
Proof.
  intros Hi. unfold Bufio.trySplit, Bufio.ScanLines. rewrite Hi.
  destruct (Bufio.data s) as [|a d]; [done|].
  by destruct (Bufio.err s).
Qed.

Lemma trySplit_final (s : Bufio.Scanner) (e : Bufio.serr) :
  Bufio.IndexByte (Bufio.data s) Bufio.newline = None ->
  Bufio.err s = Some e ->
  Bufio.data s <> EmptyString ->
  Bufio.trySplit s
  = ({| Bufio.r := Bufio.r s; Bufio.cap := Bufio.cap s;
        Bufio.start := (Bufio.start s + Z.of_nat (String.length (Bufio.data s)))%Z;
        Bufio.data := Strings.drop (String.length (Bufio.data s)) (Bufio.data s);
        Bufio.err := Bufio.err s |},
     Some (Bufio.dropCR (Bufio.data s))).
Proof.
  intros Hi He Hd. unfold Bufio.trySplit, Bufio.ScanLines. rewrite Hi, He.
  by destruct (Bufio.data s) as [|a d].
Qed.

Lemma trySplit_none (s : Bufio.Scanner) :
  Bufio.IndexByte (Bufio.data s) Bufio.newline = None ->
  Bufio.err s = None \/ Bufio.data s = EmptyString ->
  exists s1, Bufio.trySplit s = (s1, None)
    /\ Bufio.r s1 = Bufio.r s /\ Bufio.cap s1 = Bufio.cap s
    /\ Bufio.start s1 = Bufio.start s /\ Bufio.data s1 = Bufio.data s
    /\ Bufio.err s1 = Bufio.err s.
Proof.
  intros Hi Hor. unfold Bufio.trySplit, Bufio.ScanLines. rewrite Hi.
  destruct (Bufio.data s) as [|a d] eqn:Ed.
  - destruct (Bufio.err s) eqn:Ee.
    + eexists; split; [done|]. simpl.
      repeat split; try done. lia.
    + by exists s.
  - destruct Hor as [He|]; [|done]. rewrite He.
    eexists; split; [done|]. simpl. repeat split; try done. lia.
Qed.

Lemma makeRoom_fits (s : Bufio.Scanner) :
  bufferOk s ->
  (Z.of_nat (String.length (Bufio.data s)) < Bufio.MaxScanTokenSize)%Z ->
  exists s2, Bufio.makeRoom s = Bufio.Room s2
    /\ Bufio.r s2 = Bufio.r s /\ Bufio.data s2 = Bufio.data s
    /\ Bufio.err s2 = Bufio.err s
    /\ bufferOk s2 /\ (Bufio.send s2 < Bufio.cap s2)%Z.
Proof.
  unfold bufferOk, Bufio.makeRoom, Bufio.send. intros [Hs Hc] Hlen.
  unfold Bufio.MaxScanTokenSize, Bufio.startBufSize in *.
  destruct ((0 <? Bufio.start s)%Z
            && ((Bufio.start s + Z.of_nat (String.length (Bufio.data s))
                 =? Bufio.cap s)%Z
                || (Bufio.cap s `div` 2 <? Bufio.start s)%Z)) eqn:Eshift;
    simpl.
  - destruct (0 + Z.of_nat (String.length (Bufio.data s)) =? Bufio.cap s)%Z eqn:Efull.
    + apply Z.eqb_eq in Efull.
      destruct (64 * 1024 <=? Bufio.cap s)%Z eqn:Emax; [lia|].
      apply Z.leb_gt in Emax.
      eexists; split; [done|]. simpl. repeat split; try done; try lia.
      all: destruct (Bufio.cap s * 2 =? 0)%Z eqn:E0; lia.
    + apply Z.eqb_neq in Efull.
      eexists; split; [done|]. simpl. repeat split; try done; lia.
  - destruct (Bufio.start s + Z.of_nat (String.length (Bufio.data s))
              =? Bufio.cap s)%Z eqn:Efull.
    + apply Z.eqb_eq in Efull.
      rewrite orb_true_l, andb_true_r in Eshift. apply Z.ltb_ge in Eshift.
      destruct (64 * 1024 <=? Bufio.cap s)%Z eqn:Emax; [lia|].
      apply Z.leb_gt in Emax.
      eexists; split; [done|]. simpl. repeat split; try done; try lia.
      all: destruct (Bufio.cap s * 2 =? 0)%Z eqn:E0; lia.
    + apply Z.eqb_neq in Efull.
      eexists; split; [done|]. repeat split; try done; lia.
Qed.





(** ** What the scanner reads ahead *)

Lemma take_all (k : nat) (c : string) :
  (String.length c <= k)%nat -> Strings.take k c = c /\ Strings.drop k c = EmptyString.
Proof.
  revert c. induction k as [|k IH]; intros [|a c]; simpl; try done; try lia.
  intros Hle. destruct (IH c) as [-> ->]; [lia|done].
Qed.

(** When the child's first write holds the marker line and more, and is
    read in one piece, the goroutine finds the marker and copies only what
    is read after that piece. *)
Lemma lookForMarker_readahead (sshCmdDebug extra : string) (later : list string)
    (e : rend) (rawStderr : reader) :
  (Z.of_nat (String.length (echoMarkerConnected +:+ nl +:+ extra))
   <= Bufio.startBufSize)%Z ->
  lookForMarker sshCmdDebug
    {| chunks := (echoMarkerConnected +:+ nl +:+ extra) :: later; rends := e |}
    rawStderr
  = Sends None (copied {| chunks := later; rends := e |}).
Proof.
  intros Hlen. unfold lookForMarker.
  set (first := echoMarkerConnected +:+ nl +:+ extra) in *.
  cbn [chunks]. rewrite Nat.add_comm. cbn [Nat.add waitMarker].
  unfold Bufio.Scan. cbn [Bufio.r Bufio.NewScanner chunks].
  rewrite Nat.add_comm. cbn [Nat.add Bufio.scan].
  assert (Bufio.trySplit (Bufio.NewScanner {| chunks := first :: later; rends := e |})
          = (Bufio.NewScanner {| chunks := first :: later; rends := e |}, None))
    as -> by reflexivity.
  cbn [Bufio.err Bufio.NewScanner].
  assert (Bufio.makeRoom (Bufio.NewScanner {| chunks := first :: later; rends := e |})
          = Bufio.Room {| Bufio.r := {| chunks := first :: later; rends := e |};
                          Bufio.cap := 4096; Bufio.start := 0;
                          Bufio.data := EmptyString; Bufio.err := None |})
    as -> by reflexivity.
  cbn [Bufio.r chunks rends Bufio.fill Bufio.cap Bufio.send Bufio.start Bufio.data].
  unfold Read. cbn [chunks rends].
  match goal with |- context [Z.to_nat ?z] => set (room := Z.to_nat z) in * end.
  destruct (take_all room first) as [-> ->].
  { unfold Bufio.startBufSize in Hlen. unfold room, Bufio.send.
    cbn [Bufio.start Bufio.data String.length]. lia. }
  assert (exists a t, first = String a t) as (a & t & Hfirst) by (by eexists _, _).
  rewrite Hfirst at 1. rewrite app_empty.
  rewrite (trySplit_newline _ 13) by reflexivity.
  cbn [Bufio.data].
  change (Bufio.dropCR (Strings.take 13 first)) with echoMarkerConnected.
  rewrite String.eqb_refl. reflexivity.
Qed.

(** ** Closing a connection *)

(** C6: [Close] closes the stdin of the connection first and cancels the
    process context after that, in this order, whatever closing stdin
    returns. *)
Theorem Close_stdin_then_cancel (closeErr : option error) (tr : list Event) :
  Close closeErr tr = tr ++ [EvStdinClose; EvCtxCancel]
  /\ exists tr1, stdin_Close closeErr tr = (tr1, closeErr)
       /\ tr1 = tr ++ [EvStdinClose]
       /\ Close closeErr tr = ctxCancel tr1.
Proof.
  unfold Close, stdin_Close, ctxCancel. split.
  - by rewrite <- app_assoc.
  - by exists (tr ++ [EvStdinClose]).
Qed.

(** ** Connecting *)

Ltac run_connect :=
  unfold doConnect_body, bind, emit, check, ret, return_; simpl.

Section Properties.
Context `{Externals}.

(** C9: when the expansion of the command gives no field at all, as for
    the empty command that the bare mode string [custom:] is parsed to,
    [doConnect] fails with an error and starts no child process. *)
Theorem doConnect_empty_command
    (p : ShellTransportCustomCmdParams) (w : World)
    (Hempty : shell_Fields (ShellCommand p) (lookupVar p w) = Ok []) :
  doConnect p w
    = ([EvSend {| DebugInfo := None; Result := Some commandIsEmpty |}],
       commandIsEmpty)
  /\ started (doConnect p w).1 = false
  /\ ParseTransportMode "custom:" = Ok (NewTransportModeCustom EmptyString).
Proof.
  assert (doConnect p w
    = ([EvSend {| DebugInfo := None; Result := Some commandIsEmpty |}],
       commandIsEmpty)) as E.
  { unfold doConnect, doConnect_body. rewrite Hempty. reflexivity. }
  rewrite E. repeat split.
Qed.

(** C8: every run of [doConnect] sends exactly one update that carries a
    result, as the last update; in this result exactly one of [Conn] and
    [Err] is set; the updates before it carry debug info only. *)
Theorem doConnect_one_terminal_update
    (p : ShellTransportCustomCmdParams) (w : World) :
  exists debug,
    sent (doConnect p w).1
      = debug ++ [{| DebugInfo := None; Result := Some (doConnect p w).2 |}]
    /\ Forall isDebugOnly debug
    /\ ((is_Some (Conn (doConnect p w).2) /\ ResErr (doConnect p w).2 = None)
        \/ (Conn (doConnect p w).2 = None /\ is_Some (ResErr (doConnect p w).2))).
Proof.
  unfold doConnect, doConnect_body.
  destruct (shell_Fields (ShellCommand p) (lookupVar p w)) as [[|name args]|e].
  1, 3: exists []; simpl; repeat split; [constructor | right; eauto].
  destruct (stdinPipeErr w), (stdoutPipeErr w), (stderrPipeErr w),
    (startErr w), (stdinWriteErr w);
    try (run_connect; eexists [_]; repeat split;
         [repeat constructor; eauto | right; eauto]);
    try (run_connect; eexists [_; _]; repeat split;
         [repeat constructor; eauto | right; eauto]).
  run_connect.
  destruct (lookForMarker _ _ _) as [[e|] out|]; destruct (timerFirst w);
    simpl;
    try (eexists [_; _]; repeat split;
         [repeat constructor; eauto | right; eauto]).
  eexists [_; _; _]; repeat split; [repeat constructor; eauto | left; eauto].
Qed.


(** X15: when every step up to the write of the marker succeeds, the
    timer does not fire first, and the marker line comes at the start of
    the child's output, in a first read of at most 4096 bytes that holds
    [extra] after it, the connection is made and its stdout gives what is
    read later; [extra] is not part of it. *)
Lemma doConnect_delivers_later_reads
    (p : ShellTransportCustomCmdParams) (w : World)
    (name : string) (args : list string)
    (extra : string) (later : list string) (e : rend)
    (Hfields : shell_Fields (ShellCommand p) (lookupVar p w) = Ok (name :: args))
    (Hstdin : stdinPipeErr w = None)
    (Hstdout : stdoutPipeErr w = None)
    (Hstderr : stderrPipeErr w = None)
    (Hstart : startErr w = None)
    (Hwrite : stdinWriteErr w = None)
    (Htimer : timerFirst w = false)
    (Hout : procStdout w
            = {| chunks := (echoMarkerConnected +:+ nl +:+ extra) :: later;
                 rends := e |})
    (Hlen : (Z.of_nat (String.length (echoMarkerConnected +:+ nl +:+ extra))
             <= Bufio.startBufSize)%Z) :
  passthroughSpec (bytes_of (procStdout w))
    = Some (extra +:+ bytes_of {| chunks := later; rends := e |})
  /\ exists conn,
       Conn (doConnect p w).2 = Some conn
       /\ stdout conn = copied {| chunks := later; rends := e |}
       /\ bytes_of (stdout conn) = bytes_of {| chunks := later; rends := e |}.
Proof.
  split.
  - rewrite Hout, bytes_of_cons, !app_assoc_string. reflexivity.
  - unfold doConnect, doConnect_body.
    rewrite Hfields, Hstdin, Hstdout, Hstderr, Hstart, Hwrite, Hout.
    rewrite lookForMarker_readahead by done.
    run_connect. rewrite Htimer. simpl. eexists. repeat split.
Qed.

End Properties.

Lemma doConnect_empty_command_witness :
  shell_Fields (ShellCommand emptyParams) (lookupVar emptyParams (quietWorld [] REOF))
    = Ok []
  /\ doConnect emptyParams (quietWorld [] REOF)
     = ([EvSend {| DebugInfo := None; Result := Some commandIsEmpty |}],
        commandIsEmpty).
Proof.
  split; [reflexivity|].
  apply (doConnect_empty_command emptyParams (quietWorld [] REOF)).
  reflexivity.
Defined.



(** ** Expansion of variables *)

Lemma literalPart_DblQuoted (env : string -> string) (ps : list Shell.WordPart) :
  Shell.literalPart env (Shell.DblQuoted ps) = Shell.Literal env ps.
Proof.
  induction ps as [|q qs IH]; [done|].
  simpl in *. by rewrite IH.
Qed.

Lemma literalPart_ParamExp (env : string -> string) (X : string)
    (op : Shell.ParOp) (word : Shell.Word) :
  Shell.literalPart env (Shell.ParamExp X op word) =
  match op with
  | Shell.PlainParam => Ok (env X)
  | Shell.DefaultUnsetOrNull =>
      match Shell.Literal env word with
      | Err e => Err e
      | Ok arg => Ok (if Shell.isEmpty (env X) then arg else env X)
      end
  | Shell.AlternateUnsetOrNull =>
      match Shell.Literal env word with
      | Err e => Err e
      | Ok arg => Ok (if Shell.isEmpty (env X) then env X else arg)
      end
  end.
Proof.
  pose proof (literalPart_DblQuoted env word) as E.
  destruct op; simpl in *; by rewrite ?E.
Qed.

Lemma lookupVar_override (p : ShellTransportCustomCmdParams) (w : World)
    (X value : string) :
  EnvOverride p !! X = Some value -> lookupVar p w X = value.
Proof. unfold lookupVar. by intros ->. Qed.

Lemma isEmpty_true (s : string) : Shell.isEmpty s = true <-> s = EmptyString.
Proof. by destruct s. Qed.

(** C5: with the variables looked up as [doConnect] does, [${X:-d}] gives d
    when X is unset or empty and the value of X otherwise, [${X:+a}] gives
    a when X is set and not empty and nothing otherwise, [${X}] gives the
    value or nothing; a command substitution or a control operator is an
    error, and is not run; an entry of [EnvOverride] wins over the process
    environment, and an empty entry makes the variable unset. *)
Theorem expansion_of_variables
    (p : ShellTransportCustomCmdParams) (w : World)
    (X : string) (d a : Shell.Word) (dv av : string)
    (Hd : Shell.Literal (lookupVar p w) d = Ok dv)
    (Ha : Shell.Literal (lookupVar p w) a = Ok av) :
  let env := lookupVar p w in
  (* the three forms *)
  Shell.literalPart env (Shell.ParamExp X Shell.PlainParam []) = Ok (env X)
  /\ Shell.literalPart env (Shell.ParamExp X Shell.DefaultUnsetOrNull d)
     = Ok (if decide (env X = EmptyString) then dv else env X)
  /\ Shell.literalPart env (Shell.ParamExp X Shell.AlternateUnsetOrNull a)
     = Ok (if decide (env X = EmptyString) then EmptyString else av)
  (* the same, read from the command string *)
  /\ Shell.Fields (dq +:+ "${X}" +:+ dq) env = Ok [env "X"]
  /\ Shell.Fields (dq +:+ "${X:-d}" +:+ dq) env
     = Ok [if decide (env "X" = EmptyString) then "d" else env "X"]
  /\ Shell.Fields (dq +:+ "${X:+a}" +:+ dq) env
     = Ok [if decide (env "X" = EmptyString) then EmptyString else "a"]
  (* nothing else is expanded *)
  /\ (forall src, Shell.literalPart env (Shell.CmdSubst src) = Err Shell.UnexpectedCommand)
  /\ Shell.Fields "echo $(date)" env = Err Shell.UnexpectedCommand
  /\ Shell.Fields "echo `date`" env = Err Shell.UnexpectedCommand
  /\ Shell.Fields "if true; then date; fi" env = Err (Shell.NotAWord ";")
  /\ Shell.Fields "while true" env = Ok ["while"; "true"]
  (* where the value of a variable comes from *)
  /\ env X = match EnvOverride p !! X with
             | Some value => value
             | None => default EmptyString (environ w !! X)
             end
  /\ (EnvOverride p !! X = Some EmptyString ->
      env X = EmptyString
      /\ Shell.literalPart env (Shell.ParamExp X Shell.DefaultUnsetOrNull d) = Ok dv
      /\ Shell.literalPart env (Shell.ParamExp X Shell.AlternateUnsetOrNull a)
         = Ok EmptyString).
Proof.
  intros env. subst env.
  rewrite !literalPart_ParamExp, Hd, Ha.
  assert (forall (s x y : string),
    (if Shell.isEmpty s then x else y) = if decide (s = EmptyString) then x else y)
    as Hif.
  { intros s x y. destruct s; by case_decide. }
  repeat split.
  - by rewrite Hif.
  - rewrite Hif. by case_decide as E; [rewrite E|].
  - generalize (lookupVar p w). intros env. vm_compute.
    do 2 f_equal. apply app_empty_r.
  - generalize (lookupVar p w). intros env. vm_compute.
    destruct (env "X"); [done|]. do 3 f_equal. apply app_empty_r.
  - generalize (lookupVar p w). intros env. vm_compute.
    by destruct (env "X").
  - apply (lookupVar_override p w X EmptyString); done.
  - by rewrite (lookupVar_override p w X EmptyString).
  - by rewrite (lookupVar_override p w X EmptyString).
Qed.

Lemma expansion_of_variables_witness :
  Shell.Literal (lookupVar fooParams fooWorld) [Shell.Lit "sh"] = Ok "sh"
  /\ Shell.Literal (lookupVar fooParams fooWorld) [Shell.Lit "alt"] = Ok "alt"
  /\ EnvOverride fooParams !! "FOO" = Some EmptyString
  /\ Getenv fooWorld "FOO" = "123"
  /\ Shell.literalPart (lookupVar fooParams fooWorld)
       (Shell.ParamExp "FOO" Shell.DefaultUnsetOrNull [Shell.Lit "sh"]) = Ok "sh"
  /\ Shell.literalPart (lookupVar fooParams fooWorld)
       (Shell.ParamExp "FOO" Shell.AlternateUnsetOrNull [Shell.Lit "alt"])
     = Ok EmptyString.
Proof.
  do 4 (split; [reflexivity|]).
  apply (expansion_of_variables fooParams fooWorld "FOO"
           [Shell.Lit "sh"] [Shell.Lit "alt"] "sh" "alt");
    reflexivity.
Defined.

(** ** The handshake *)

(** C1, at an input where it fails: the child writes the marker line and
    the line [hello] in one piece.  The marker is written to its stdin and
    the connection is made, but [hello], which follows the marker line, was
    read into the scanner's buffer with it and never reaches the stdout of
    the connection. *)
Theorem doConnect_loses_buffered_stdout :
  let out := echoMarkerConnected +:+ nl +:+ "hello" +:+ nl in
  let run := doConnect shParams (quietWorld [out] REOF) in
  passthroughSpec out = Some ("hello" +:+ nl)
  /\ In (EvStdinWrite ("echo __CONNECTED__" +:+ nl)) run.1
  /\ exists conn, Conn run.2 = Some conn
       /\ bytes_of (stdout conn) = EmptyString
       /\ Some (bytes_of (stdout conn)) <> passthroughSpec out.
Proof.
  vm_compute. split; [reflexivity|]. split; [tauto|].
  eexists. split; [reflexivity|]. split; [reflexivity|]. discriminate.
Qed.

(** When the child's writes are read one at a time, the same output goes
    through. *)
Example doConnect_passthrough_separate_reads :
  let run := doConnect shParams
    (quietWorld [echoMarkerConnected +:+ nl; "hello" +:+ nl] REOF) in
  exists conn, Conn run.2 = Some conn
    /\ bytes_of (stdout conn) = "hello" +:+ nl.
Proof. vm_compute. eexists. split; reflexivity. Qed.

(** The lines before the marker are read and dropped. *)
Example doConnect_skips_banner :
  let run := doConnect shParams
    (quietWorld ["Welcome" +:+ nl +:+ "__CONN"; "ECTED__" +:+ nl; "x" +:+ nl; "y"] REOF) in
  exists conn, Conn run.2 = Some conn
    /\ bytes_of (stdout conn) = "x" +:+ nl +:+ "y".
Proof. vm_compute. eexists. split; reflexivity. Qed.

(** The default command of [ssh-bin], for a host alone and with a port and
    a user. *)
Example default_command_fields :
  Shell.Fields DefaultSSHShellCommand
    (lookupVar {| ShellCommand := DefaultSSHShellCommand;
                  EnvOverride := {[ "NLHOST" := "my-01" ]} |} silentWorld)
  = Ok ["ssh"; "-o"; "BatchMode=yes"; "my-01"; "/bin/sh"]
  /\ Shell.Fields DefaultSSHShellCommand
    (lookupVar {| ShellCommand := DefaultSSHShellCommand;
                  EnvOverride := <[ "NLUSER" := "myuser" ]>
                    (<[ "NLPORT" := "1234" ]> {[ "NLHOST" := "myactualserver.com" ]}) |}
               silentWorld)
  = Ok ["ssh"; "-o"; "BatchMode=yes"; "-p"; "1234";
        "myuser@myactualserver.com"; "/bin/sh"].
Proof. split; vm_compute; reflexivity. Qed.

(** * Further properties *)

(** ** Transport modes: kinds *)

Lemma ParseTransportMode_prints_back (s : string) (m : TransportMode) :
  ParseTransportMode s = Ok m -> TransportMode_String m = s.
Proof.
  unfold ParseTransportMode.
  change (TransportModeKindCustom +:+ ":") with "custom:".
  destruct (String.eqb s TransportModeKindSSHLib) eqn:E1.
  { apply String.eqb_eq in E1 as ->. by intros [= <-]. }
  destruct (String.eqb s TransportModeKindSSHBin) eqn:E2.
  { apply String.eqb_eq in E2 as ->. by intros [= <-]. }
  destruct (Strings.HasPrefix s "custom:") eqn:E3; [|done].
  intros [= <-]. unfold Strings.TrimPrefix. rewrite E3.
  symmetry. apply (HasPrefix_inv s "custom:" E3).
Qed.

Lemma ParseTransportMode_kind (s : string) (m : TransportMode) :
  ParseTransportMode s = Ok m ->
  kind m = TransportModeKindSSHLib \/ kind m = TransportModeKindSSHBin
  \/ kind m = TransportModeKindCustom.
Proof.
  unfold ParseTransportMode.
  destruct (String.eqb s TransportModeKindSSHLib); [intros [= <-]; by left|].
  destruct (String.eqb s TransportModeKindSSHBin);
    [intros [= <-]; right; by left|].
  destruct (Strings.HasPrefix s _); [|done].
  intros [= <-]. right; by right.
Qed.

(** X1: a mode that [ParseTransportMode] returns has one of the three
    kinds, so that [CustomShellCommand] does not panic on it and [String]
    does not print it as [invalid]. *)
Theorem parsed_mode_has_known_kind (s : string) (m : TransportMode)
    (Hparse : ParseTransportMode s = Ok m) :
  (Kind m = TransportModeKindSSHLib \/ Kind m = TransportModeKindSSHBin
   \/ Kind m = TransportModeKindCustom)
  /\ (exists command, CustomShellCommand m = Some command)
  /\ TransportMode_String m <> "invalid".
Proof.
  pose proof (ParseTransportMode_kind s m Hparse) as Hk.
  split; [exact Hk|]. split.
  - unfold CustomShellCommand.
    destruct Hk as [E | [E | E]]; rewrite E; simpl; eauto.
  - rewrite (ParseTransportMode_prints_back s m Hparse).
    intros ->. discriminate Hparse.
Qed.

Lemma parsed_mode_has_known_kind_witness :
  ParseTransportMode "ssh-bin" = Ok NewTransportModeSSHBin
  /\ exists command, CustomShellCommand NewTransportModeSSHBin = Some command.
Proof.
  split; [reflexivity|].
  apply (parsed_mode_has_known_kind "ssh-bin" NewTransportModeSSHBin).
  reflexivity.
Defined.

(** X2: [CustomShellCommand] panics exactly on the modes whose kind is
    none of the three, which are also exactly those that [String] prints as
    [invalid]; and [invalid] is not a mode string that parses. *)
Theorem unknown_kind_panics_and_prints_invalid (m : TransportMode) :
  (CustomShellCommand m = None <-> unknownKind m)
  /\ (TransportMode_String m = "invalid" <-> unknownKind m)
  /\ ParseTransportMode "invalid"
     = Err (Errorf "invalid transport mode %q" ["invalid"]).
Proof.
  unfold CustomShellCommand, TransportMode_String, unknownKind.
  destruct (String.eqb (kind m) TransportModeKindSSHLib) eqn:E1.
  { apply String.eqb_eq in E1. rewrite E1. simpl.
    repeat split; try done; intros (? & ? & ?); done. }
  destruct (String.eqb (kind m) TransportModeKindSSHBin) eqn:E2.
  { apply String.eqb_eq in E2. rewrite E2. simpl.
    repeat split; try done; intros (? & ? & ?); done. }
  destruct (String.eqb (kind m) TransportModeKindCustom) eqn:E3.
  { apply String.eqb_eq in E3. rewrite E3. simpl.
    repeat split; try done; intros (? & ? & ?); done. }
  apply eqb_false_ne in E1, E2, E3. simpl. repeat split; done.
Qed.

(** X3: two accepted mode strings that parse to the same mode are equal,
    and two parsed modes that print the same are equal. *)
Theorem parse_and_print_are_injective
    (s1 s2 : string) (m1 m2 : TransportMode)
    (H1 : ParseTransportMode s1 = Ok m1)
    (H2 : ParseTransportMode s2 = Ok m2) :
  (m1 = m2 -> s1 = s2)
  /\ (TransportMode_String m1 = TransportMode_String m2 -> m1 = m2).
Proof.
  pose proof (ParseTransportMode_prints_back s1 m1 H1) as P1.
  pose proof (ParseTransportMode_prints_back s2 m2 H2) as P2.
  split.
  - intros ->. congruence.
  - rewrite P1, P2. intros ->. congruence.
Qed.

Lemma parse_and_print_are_injective_witness :
  ParseTransportMode "custom:ssh-lib" = Ok (NewTransportModeCustom "ssh-lib")
  /\ ParseTransportMode "ssh-lib" = Ok NewTransportModeSSHLib
  /\ TransportMode_String (NewTransportModeCustom "ssh-lib")
     <> TransportMode_String NewTransportModeSSHLib.
Proof.
  split; [reflexivity|]. split; [reflexivity|].
  intros Hsame.
  destruct (parse_and_print_are_injective "custom:ssh-lib" "ssh-lib"
              (NewTransportModeCustom "ssh-lib") NewTransportModeSSHLib
              eq_refl eq_refl) as [_ Hinj].
  discriminate (Hinj Hsame).
Defined.

(** ** Connecting: the steps before the handshake *)

Section Setup.
Context `{Externals}.

Lemma writeFields_from (i : nat) (cmdFields : list string) (builder : string) :
  writeFields (S i) cmdFields builder
  = builder +:+ foldr (fun v acc => " " +:+ shellQuote v +:+ acc) EmptyString cmdFields.
Proof.
  revert i builder. induction cmdFields as [|v rest IH]; intros i builder; simpl.
  - by rewrite app_empty_r.
  - rewrite IH. by rewrite !app_assoc_string.
Qed.

(** X4: the command line shown in the debug and error messages is the
    quoted fields with one space between two of them, and no space before
    the first or after the last. *)
Theorem sshCmdDebug_is_quoted_fields (first : string) (rest : list string) :
  sshCmdDebugOf [] = EmptyString
  /\ sshCmdDebugOf (first :: rest)
     = shellQuote first
       +:+ foldr (fun v acc => " " +:+ shellQuote v +:+ acc) EmptyString rest.
Proof.
  split; [reflexivity|].
  unfold sshCmdDebugOf. simpl. rewrite writeFields_from. by rewrite app_empty.
Qed.

(** X5: when the command does not parse, or a pipe cannot be made, or the
    child cannot be started, [doConnect] returns the error of the first of
    these steps that fails, wrapped with the name of the step; it sends the
    first debug update only if the command gave fields, and then the
    result, and starts nothing. *)
Theorem doConnect_setup_failure
    (p : ShellTransportCustomCmdParams) (w : World) :
  (forall e,
     shell_Fields (ShellCommand p) (lookupVar p w) = Err e ->
     let res := failedWith (Annotatef e "parsing shell command %q" [ShellCommand p]) in
     doConnect p w = ([EvSend (finalUpdate res)], res))
  /\ (forall name args e,
        shell_Fields (ShellCommand p) (lookupVar p w) = Ok (name :: args) ->
        setupError w = Some e ->
        doConnect p w
        = ([EvSend (firstDebug (sshCmdDebugOf (name :: args)));
            EvSend (finalUpdate (failedWith e))],
           failedWith e)).
Proof.
  split.
  - intros e He. unfold doConnect, doConnect_body. by rewrite He.
  - intros name args e Hf. unfold setupError, doConnect, doConnect_body.
    rewrite Hf.
    destruct (stdinPipeErr w), (stdoutPipeErr w), (stderrPipeErr w), (startErr w);
      intros [= <-]; reflexivity.
Qed.

(** X6: [doConnect] starts a child exactly when the command gives at least
    one field and the pipes and the start succeed; it starts one child
    only, the first field with the other fields as its arguments. *)
Theorem doConnect_starts
    (p : ShellTransportCustomCmdParams) (w : World) :
  starts (doConnect p w).1
  = match shell_Fields (ShellCommand p) (lookupVar p w), setupError w with
    | Ok (name :: args), None => [(name, args)]
    | _, _ => []
    end.
Proof.
  unfold setupError, doConnect, doConnect_body.
  destruct (shell_Fields (ShellCommand p) (lookupVar p w)) as [[|name args]|e];
    [reflexivity| |reflexivity].
  destruct (stdinPipeErr w), (stdoutPipeErr w), (stderrPipeErr w), (startErr w);
    try reflexivity.
  run_connect.
  destruct (stdinWriteErr w); [reflexivity|]. simpl.
  destruct (lookForMarker _ _ _) as [[e|] out|]; destruct (timerFirst w);
    reflexivity.
Qed.

Lemma writesAfterStart_sound (seen : bool) (tr before after : list Event)
    (line : string) :
  writesAfterStart seen tr = true ->
  tr = before ++ EvStdinWrite line :: after ->
  seen || started before = true.
Proof.
  revert seen tr. induction before as [|x before IH]; intros seen tr Hok ->.
  - simpl in Hok. apply andb_true_iff in Hok as [-> _]. done.
  - destruct x; simpl in Hok.
    + by apply (IH seen _ Hok).
    + by rewrite orb_true_r.
    + apply andb_true_iff in Hok as [-> _]. done.
    + by apply (IH seen _ Hok).
    + by apply (IH seen _ Hok).
Qed.

(** X7: the only thing [doConnect] ever writes to the child's stdin is the
    line [echo __CONNECTED__], once, after the child was started; when this
    write fails the result is the error of the write, wrapped. *)
Theorem doConnect_stdin_writes
    (p : ShellTransportCustomCmdParams) (w : World) :
  stdinWrites (doConnect p w).1
  = match shell_Fields (ShellCommand p) (lookupVar p w),
          setupError w, stdinWriteErr w with
    | Ok (_ :: _), None, None => ["echo __CONNECTED__" +:+ nl]
    | _, _, _ => []
    end
  /\ (forall before line after,
        (doConnect p w).1 = before ++ EvStdinWrite line :: after ->
        started before = true)
  /\ (forall name args e,
        shell_Fields (ShellCommand p) (lookupVar p w) = Ok (name :: args) ->
        setupError w = None -> stdinWriteErr w = Some e ->
        (doConnect p w).2
        = failedWith (Annotatef e "writing connection marker" [])).
Proof.
  assert (writesAfterStart false (doConnect p w).1 = true) as Horder.
  { unfold doConnect, doConnect_body.
    destruct (shell_Fields (ShellCommand p) (lookupVar p w)) as [[|name args]|e];
      [reflexivity| |reflexivity].
    destruct (stdinPipeErr w), (stdoutPipeErr w), (stderrPipeErr w), (startErr w);
      try reflexivity.
    run_connect. destruct (stdinWriteErr w); [reflexivity|]. simpl.
    destruct (lookForMarker _ _ _) as [[e|] out|]; destruct (timerFirst w);
      reflexivity. }
  split; [|split].
  - unfold setupError, doConnect, doConnect_body.
    destruct (shell_Fields (ShellCommand p) (lookupVar p w)) as [[|name args]|e];
      [reflexivity| |reflexivity].
    destruct (stdinPipeErr w), (stdoutPipeErr w), (stderrPipeErr w), (startErr w);
      try reflexivity.
    run_connect. destruct (stdinWriteErr w); [reflexivity|]. simpl.
    destruct (lookForMarker _ _ _) as [[e|] out|]; destruct (timerFirst w);
      reflexivity.
  - intros before line after E.
    apply (writesAfterStart_sound false _ before after line Horder E).
  - intros name args e Hf. unfold setupError, doConnect, doConnect_body.
    rewrite Hf.
    destruct (stdinPipeErr w), (stdoutPipeErr w), (stderrPipeErr w), (startErr w);
      try done.
    intros _ ->. reflexivity.
Qed.

(** X8: [doConnect] itself never closes the child's stdin and never cancels
    its context, also when it fails after the child was started. *)
Theorem doConnect_never_closes
    (p : ShellTransportCustomCmdParams) (w : World) :
  Forall (fun ev => ev <> EvStdinClose /\ ev <> EvCtxCancel) (doConnect p w).1.
Proof.
  unfold doConnect, doConnect_body.
  destruct (shell_Fields (ShellCommand p) (lookupVar p w)) as [[|name args]|e];
    [repeat constructor; done| |repeat constructor; done].
  destruct (stdinPipeErr w), (stdoutPipeErr w), (stderrPipeErr w), (startErr w);
    try (repeat constructor; done).
  run_connect.
  destruct (stdinWriteErr w); [repeat constructor; done|]. simpl.
  destruct (lookForMarker _ _ _) as [[e|] out|]; destruct (timerFirst w);
    repeat constructor; done.
Qed.

End Setup.

Lemma doConnect_setup_failure_witness :
  doConnect shParams noPipeWorld
  = ([EvSend (firstDebug "/bin/sh");
      EvSend (finalUpdate (failedWith
        (Annotatef (SysError "too many open files") "getting stdout pipe" [])))],
     failedWith (Annotatef (SysError "too many open files") "getting stdout pipe" [])).
Proof.
  destruct (doConnect_setup_failure shParams noPipeWorld) as [_ Hsetup].
  apply (Hsetup "/bin/sh" []); reflexivity.
Defined.

Lemma doConnect_stdin_writes_witness :
  (doConnect shParams noWriteWorld).2
  = failedWith (Annotatef (SysError "broken pipe") "writing connection marker" [])
  /\ stdinWrites (doConnect shParams noWriteWorld).1 = []
  /\ starts (doConnect shParams noWriteWorld).1 = [("/bin/sh", [])].
Proof.
  destruct (doConnect_stdin_writes shParams noWriteWorld) as (Hw & _ & Herr).
  split; [apply (Herr "/bin/sh" []); reflexivity|].
  split; [exact Hw|reflexivity].
Defined.

(** ** What a connection's stdout is made of *)

Lemma reader_eta (rd : reader) : {| chunks := chunks rd; rends := rends rd |} = rd.
Proof. by destruct rd. Qed.

Lemma IndexByte_take (d : string) (c : ascii) (i : nat) :
  Bufio.IndexByte d c = Some i ->
  Strings.take (S i) d = Strings.take i d +:+ String c EmptyString
  /\ Bufio.IndexByte (Strings.take i d) c = None.
Proof.
  revert i. induction d as [|a d IH]; intros i; [done|].
  cbn [Bufio.IndexByte]. destruct (Ascii.eqb a c) eqn:E.
  - intros [= <-]. apply Ascii.eqb_eq in E as ->. done.
  - destruct (Bufio.IndexByte d c) as [j|]; [|done].
    intros [= <-]. destruct (IH j eq_refl) as [Ht Hn].
    split.
    + change (Strings.take (S (S j)) (String a d))
        with (String a (Strings.take (S j) d)).
      rewrite Ht. reflexivity.
    + cbn [Strings.take Bufio.IndexByte]. by rewrite E, Hn.
Qed.

Lemma drop_all (d : string) : Strings.drop (String.length d) d = EmptyString.
Proof. by induction d. Qed.

Lemma fill_unread (s s3 : Bufio.Scanner) (loop : Z) (cs : list string) (e : rend) :
  Bufio.fill s loop cs e = Bufio.Filled s3 ->
  unread s3 = Bufio.data s +:+ bytes_of {| chunks := cs; rends := e |}.
Proof.
  revert loop. induction cs as [|c cs IH]; intros loop; cbn [Bufio.fill].
  - unfold Read. cbn [chunks rends].
    destruct e as [|x|]; [| |done]; intros [= <-]; unfold unread;
      match goal with |- context [Bufio.setErr ?a ?b] =>
        destruct (setErr_same a b) as [-> ->] end; reflexivity.
  - unfold Read. cbn [chunks rends].
    set (room := Z.to_nat (Bufio.cap s - Bufio.send s)).
    pose proof (take_drop room c) as Htd.
    destruct (Strings.take room c) as [|a t] eqn:Et.
    + rewrite app_empty in Htd.
      destruct c as [|a c].
      * destruct (Bufio.maxConsecutiveEmptyReads <? loop + 1)%Z.
        -- intros [= <-]. unfold unread.
           match goal with |- context [Bufio.setErr ?a ?b] =>
             destruct (setErr_same a b) as [-> ->] end.
           cbn [Bufio.r Bufio.data]. by rewrite Htd.
        -- intros Hf. by rewrite (IH _ Hf).
      * intros [= <-]. unfold unread.
        match goal with |- context [Bufio.setErr ?a ?b] =>
          destruct (setErr_same a b) as [-> ->] end.
        cbn [Bufio.r Bufio.data]. by rewrite Htd.
    + intros [= <-]. unfold unread. cbn [Bufio.r Bufio.data].
      rewrite app_assoc_string, bytes_of_cons. f_equal.
      destruct (Strings.drop room c) eqn:Ed; rewrite <- Htd.
      * by rewrite app_empty_r.
      * by rewrite bytes_of_cons, app_assoc_string.
Qed.

Lemma trySplit_unread (s s1 : Bufio.Scanner) (tok : option string) :
  Bufio.trySplit s = (s1, tok) ->
  match tok with
  | Some line =>
      exists raw sep,
        unread s = raw +:+ sep +:+ unread s1
        /\ line = Bufio.dropCR raw
        /\ Bufio.IndexByte raw Bufio.newline = None
        /\ (sep = nl \/ (sep = EmptyString /\ finished s1))
  | None =>
      unread s1 = unread s /\ Bufio.r s1 = Bufio.r s
      /\ Bufio.err s1 = Bufio.err s /\ Bufio.data s1 = Bufio.data s
  end.
Proof.
  destruct (Bufio.IndexByte (Bufio.data s) Bufio.newline) as [i|] eqn:Ei.
  - rewrite (trySplit_newline s i Ei). intros [= <- <-].
    destruct (IndexByte_take _ _ _ Ei) as [Ht Hn].
    exists (Strings.take i (Bufio.data s)), nl. repeat split; [|done|by left].
    unfold unread. cbn [Bufio.r Bufio.data].
    rewrite <- (take_drop (S i) (Bufio.data s)) at 1.
    rewrite Ht. unfold nl. by rewrite !app_assoc_string.
  - destruct (Bufio.err s) as [e|] eqn:Ee.
    + destruct (Bufio.data s) as [|a d] eqn:Ed.
      * destruct (trySplit_none s) as (s1' & -> & Hr & _ & _ & Hd & He);
          [by rewrite Ed|by right|].
        intros [= <- <-]. unfold unread. by rewrite Hr, Hd, He, Ed, Ee.
      * rewrite (trySplit_final s e); [|by rewrite Ed|done|by rewrite Ed].
        intros [= <- <-]. rewrite Ed.
        exists (String a d), EmptyString. repeat split; [|done|].
        -- unfold unread. cbn [Bufio.r Bufio.data].
           by rewrite Ed, drop_all, !app_empty.
        -- right. split; [done|]. split; cbn [Bufio.data Bufio.err].
           ++ apply drop_all.
           ++ by rewrite Ee.
    + destruct (trySplit_none s Ei) as (s1' & -> & Hr & _ & _ & Hd & He);
        [by left|].
      intros [= <- <-]. unfold unread. by rewrite Hr, Hd, He, Ee.
Qed.

Lemma scan_token_unread (fuel : nat) (s s' : Bufio.Scanner) (line : string) :
  Bufio.scan fuel s = Bufio.Token line s' ->
  exists raw sep,
    unread s = raw +:+ sep +:+ unread s'
    /\ line = Bufio.dropCR raw
    /\ Bufio.IndexByte raw Bufio.newline = None
    /\ (sep = nl \/ (sep = EmptyString /\ finished s')).
Proof.
  revert s. induction fuel as [|fuel IH]; intros s; [done|].
  cbn [Bufio.scan]. destruct (Bufio.trySplit s) as [s1 [tok|]] eqn:Et.
  - intros [= <- <-]. exact (trySplit_unread _ _ _ Et).
  - destruct (trySplit_unread _ _ _ Et) as (Hu & _ & _ & _).
    destruct (Bufio.err s1); [done|].
    destruct (Bufio.makeRoom s1) as [s2|s2] eqn:Em; [|done].
    destruct (makeRoom_same _ _ Em) as (Hr2 & _ & Hd2).
    destruct (Bufio.fill _ _ _ _) as [s3|] eqn:Ef; [|done].
    apply fill_unread in Ef. rewrite reader_eta in Ef.
    intros Hs. destruct (IH _ Hs) as (raw & sep & Hu3 & Hrest).
    exists raw, sep. split; [|done].
    rewrite <- Hu3, Ef, <- Hu. unfold unread. by rewrite Hd2, Hr2.
Qed.

Lemma scan_finished (fuel : nat) (s : Bufio.Scanner) (line : string)
    (s' : Bufio.Scanner) :
  finished s -> Bufio.scan fuel s <> Bufio.Token line s'.
Proof.
  intros [Hd He]. destruct fuel as [|fuel]; [done|].
  cbn [Bufio.scan].
  destruct (trySplit_none s) as (s1 & -> & _ & _ & _ & _ & He1);
    [by rewrite Hd|by right|].
  rewrite He1. by destruct (Bufio.err s).
Qed.

Lemma fill_reads (s : Bufio.Scanner) (c : string) (cs : list string) (e : rend) :
  c <> EmptyString ->
  (Bufio.send s < Bufio.cap s)%Z ->
  exists s3, Bufio.fill s 0 (c :: cs) e = Bufio.Filled s3
    /\ Bufio.err s3 = Bufio.err s /\ Bufio.start s3 = Bufio.start s
    /\ Bufio.cap s3 = Bufio.cap s
    /\ (Bufio.send s3 <= Bufio.cap s)%Z
    /\ (Forall (fun c => c <> EmptyString) cs ->
        Forall (fun c => c <> EmptyString) (chunks (Bufio.r s3))).
Proof.
  intros Hc Hroom. cbn [Bufio.fill]. unfold Read. cbn [chunks rends].
  set (room := Z.to_nat (Bufio.cap s - Bufio.send s)).
  assert (exists k, room = S k) as [k Hk].
  { exists (Nat.pred room). unfold room. lia. }
  pose proof (length_take_le room c) as Hle.
  destruct c as [|a c]; [done|].
  rewrite Hk in *. cbn [Strings.take] in *.
  eexists. split; [reflexivity|].
  cbn [Bufio.err Bufio.start Bufio.cap Bufio.r chunks].
  repeat split.
  - unfold Bufio.send in *. cbn [Bufio.start Bufio.data].
    rewrite length_app. lia.
  - intros Hcs.
    match goal with
    | |- context [match ?d with EmptyString => _ | String _ _ => _ end] =>
        destruct d; [done|]
    end.
    by constructor.
Qed.

Lemma trySplit_bufferOk (s s1 : Bufio.Scanner) (tok : option string) :
  Bufio.trySplit s = (s1, tok) -> bufferOk s -> bufferOk s1.
Proof.
  unfold Bufio.trySplit.
  destruct (Bufio.ScanLines (Bufio.data s)
              (match Bufio.err s with Some _ => true | None => false end))
    as [adv t] eqn:Es.
  pose proof (ScanLines_advance _ _ _ _ Es) as Hadv.
  assert (bufferOk s ->
    bufferOk {| Bufio.r := Bufio.r s; Bufio.cap := Bufio.cap s;
                Bufio.start := (Bufio.start s + Z.of_nat adv)%Z;
                Bufio.data := Strings.drop adv (Bufio.data s);
                Bufio.err := Bufio.err s |}) as Hgen.
  { unfold bufferOk, Bufio.send. cbn [Bufio.start Bufio.data Bufio.cap].
    rewrite length_drop. intros [Hs Hc]. destruct t; lia. }
  destruct (Bufio.data s) eqn:Ed, (Bufio.err s) eqn:Ee;
    intros [= <- <-]; try done.
Qed.

Lemma makeRoom_room (s s2 : Bufio.Scanner) :
  Bufio.makeRoom s = Bufio.Room s2 ->
  bufferOk s ->
  bufferOk s2 /\ (Bufio.send s2 < Bufio.cap s2)%Z.
Proof.
  unfold bufferOk, Bufio.makeRoom, Bufio.send. intros Hm [Hs Hc]. revert Hm.
  unfold Bufio.MaxScanTokenSize, Bufio.startBufSize in *.
  destruct ((0 <? Bufio.start s)%Z
            && ((Bufio.start s + Z.of_nat (String.length (Bufio.data s))
                 =? Bufio.cap s)%Z
                || (Bufio.cap s `div` 2 <? Bufio.start s)%Z)) eqn:Eshift;
    cbn [Bufio.start Bufio.data Bufio.cap Bufio.r Bufio.err].
  - destruct (0 + Z.of_nat (String.length (Bufio.data s)) =? Bufio.cap s)%Z eqn:Efull.
    + apply Z.eqb_eq in Efull.
      destruct (64 * 1024 <=? Bufio.cap s)%Z eqn:Emax; [done|].
      apply Z.leb_gt in Emax. intros [= <-].
      cbn [Bufio.start Bufio.data Bufio.cap].
      destruct (Bufio.cap s * 2 =? 0)%Z eqn:E0; lia.
    + apply Z.eqb_neq in Efull. intros [= <-].
      cbn [Bufio.start Bufio.data Bufio.cap]. lia.
  - destruct (Bufio.start s + Z.of_nat (String.length (Bufio.data s))
              =? Bufio.cap s)%Z eqn:Efull.
    + apply Z.eqb_eq in Efull.
      rewrite orb_true_l, andb_true_r in Eshift. apply Z.ltb_ge in Eshift.
      destruct (64 * 1024 <=? Bufio.cap s)%Z eqn:Emax; [done|].
      apply Z.leb_gt in Emax. intros [= <-].
      cbn [Bufio.start Bufio.data Bufio.cap].
      destruct (Bufio.cap s * 2 =? 0)%Z eqn:E0; lia.
    + apply Z.eqb_neq in Efull. intros [= <-]. lia.
Qed.

(** A scanner that is [steady] stays so from one line to the next. *)
Lemma scan_token_steady (fuel : nat) (s s' : Bufio.Scanner) (line : string) :
  Bufio.scan fuel s = Bufio.Token line s' -> steady s -> steady s'.
Proof.
  revert s. induction fuel as [|fuel IH]; intros s; [done|].
  cbn [Bufio.scan]. destruct (Bufio.trySplit s) as [s1 [tok|]] eqn:Et.
  - intros [= <- <-] (Hok & Hne & Hend).
    destruct (trySplit_same _ _ _ Et) as (Hr & He & _).
    split; [exact (trySplit_bufferOk _ _ _ Et Hok)|]. by rewrite Hr, He.
  - intros Hs (Hok & Hne & Hend). revert Hs.
    destruct (trySplit_same _ _ _ Et) as (Hr & He & _).
    pose proof (trySplit_bufferOk _ _ _ Et Hok) as Hok1.
    destruct (Bufio.err s1) eqn:Ee1; [done|].
    destruct (Bufio.makeRoom s1) as [s2|s2] eqn:Em; [|done].
    destruct (makeRoom_same _ _ Em) as (Hr2 & He2 & Hd2).
    destruct (makeRoom_room _ _ Em Hok1) as [Hok2 Hroom].
    rewrite Hr2, Hr.
    destruct (chunks (Bufio.r s)) as [|c cs] eqn:Ecs.
    + cbn [Bufio.fill]. unfold Read. cbn [chunks rends].
      assert (Bufio.err s2 = None) as He2' by congruence.
      destruct (rends (Bufio.r s)) as [|x|]; [| |done];
        intros Hs; apply (IH _ Hs);
        unfold steady, bufferOk, Bufio.send, Bufio.setErr in *;
        rewrite He2'; cbn [Bufio.start Bufio.data Bufio.cap Bufio.r Bufio.err chunks];
        done.
    + inversion Hne as [|? ? Hc0 Hcs]; subst.
      destruct (fill_reads s2 c cs (rends (Bufio.r s)) Hc0 Hroom)
        as (s3 & -> & He3 & Hs3 & Hc3 & Hsend3 & Hne3).
      intros Hs. apply (IH _ Hs).
      split; [|split].
      * unfold bufferOk in *. rewrite Hs3, Hc3. split; [apply Hok2|done].
      * by apply Hne3.
      * rewrite He3, He2, Ee1. done.
Qed.

Lemma waitMarker_marker_line (fuel : nat) (s s' : Bufio.Scanner) :
  steady s ->
  waitMarker fuel s = GotMarker s' ->
  exists before raw sep,
    unread s = before +:+ raw +:+ sep +:+ unread s'
    /\ wholeLines before
    /\ Bufio.dropCR raw = echoMarkerConnected
    /\ Bufio.IndexByte raw Bufio.newline = None
    /\ (sep = nl \/ (sep = EmptyString /\ unread s' = EmptyString)).
Proof.
  revert s. induction fuel as [|fuel IH]; intros s Hst; [done|].
  cbn [waitMarker]. unfold Bufio.Scan.
  destruct (Bufio.scan _ s) as [line s1|s1| |] eqn:Es; try done.
  - destruct (scan_token_unread _ _ _ _ Es) as (raw & sep & Hu & Hline & Hn & Hsep).
    pose proof (scan_token_steady _ _ _ _ Es Hst) as Hst1.
    destruct (String.eqb line echoMarkerConnected) eqn:E.
    + intros [= <-]. apply String.eqb_eq in E.
      exists EmptyString, raw, sep. rewrite app_empty.
      repeat split; [done|by left|congruence|done|].
      destruct Hsep as [?|[? [Hd He]]]; [by left|right].
      split; [done|]. destruct Hst1 as (_ & _ & Hend).
      unfold unread, bytes_of. by rewrite Hd, (Hend He).
    + intros Hw.
      destruct Hsep as [->|[_ Hfin]].
      * destruct (IH _ Hst1 Hw) as (before & raw' & sep' & Hu' & Hwl & Hrest).
        exists (raw +:+ nl +:+ before), raw', sep'.
        split; [|split; [|done]].
        -- rewrite Hu, Hu'. by rewrite !app_assoc_string.
        -- right. destruct Hwl as [->|[b' ->]].
           ++ exists raw. by rewrite app_empty_r.
           ++ exists (raw +:+ nl +:+ b'). by rewrite !app_assoc_string.
      * exfalso. destruct fuel as [|fuel']; [done|].
        cbn [waitMarker] in Hw. unfold Bufio.Scan in Hw.
        destruct (Bufio.scan _ s1) as [l2 s2|s2| |] eqn:Es2; try done.
        -- by apply scan_finished in Es2.
        -- by destruct (Bufio.Scanner_Err s2).
  - by destruct (Bufio.Scanner_Err s1).
Qed.

Lemma lookForMarker_nil (sshCmdDebug : string) (rawStdout rawStderr out : reader) :
  lookForMarker sshCmdDebug rawStdout rawStderr = Sends None out <->
  exists s,
    waitMarker (Bufio.total (chunks rawStdout) + 1) (Bufio.NewScanner rawStdout)
      = GotMarker s
    /\ out = copied (Bufio.r s).
Proof.
  unfold lookForMarker.
  destruct (waitMarker _ _) as [s|e| | |].
  - split; [intros [= <-]; by exists s | by intros (? & [= <-] & ->)].
  - split; [done | by intros (? & ? & _)].
  - destruct (ReadAll rawStderr); (split; [done | by intros (? & ? & _)]).
  - split; [done | by intros (? & ? & _)].
  - split; [done | by intros (? & ? & _)].
Qed.

Section Connection.
Context `{Externals}.

Lemma doConnect_conn_marker
    (p : ShellTransportCustomCmdParams) (w : World) (conn : ShellConnCustomCmd) :
  Conn (doConnect p w).2 = Some conn ->
  exists s,
    waitMarker (Bufio.total (chunks (procStdout w)) + 1)
      (Bufio.NewScanner (procStdout w)) = GotMarker s
    /\ stdout conn = copied (Bufio.r s).
Proof.
  unfold doConnect, doConnect_body.
  destruct (shell_Fields (ShellCommand p) (lookupVar p w)) as [[|name args]|e];
    [done| |done].
  destruct (stdinPipeErr w), (stdoutPipeErr w), (stderrPipeErr w), (startErr w);
    try done.
  run_connect. destruct (stdinWriteErr w); [done|]. simpl.
  destruct (lookForMarker _ _ _) as [[e|] out|] eqn:El; destruct (timerFirst w);
    try done.
  simpl. intros [= <-].
  apply lookForMarker_nil in El as (s & Hw & ->). eauto.
Qed.

(** X9: [doConnect] returns a connection exactly when the command gave
    fields, every step up to the write of the marker succeeded, the timer
    did not fire first and the scanner returned a line equal to the marker;
    the connection then holds the fields, the child's stderr untouched, and
    as stdout what was left to read under the scanner. *)
Theorem doConnect_connects_iff
    (p : ShellTransportCustomCmdParams) (w : World) (conn : ShellConnCustomCmd) :
  Conn (doConnect p w).2 = Some conn <->
  exists name args s,
    shell_Fields (ShellCommand p) (lookupVar p w) = Ok (name :: args)
    /\ setupError w = None /\ stdinWriteErr w = None
    /\ timerFirst w = false
    /\ waitMarker (Bufio.total (chunks (procStdout w)) + 1)
         (Bufio.NewScanner (procStdout w)) = GotMarker s
    /\ conn = {| cmd := name :: args; stdout := copied (Bufio.r s);
                 stderr := procStderr w |}.
Proof.
  unfold setupError, doConnect, doConnect_body.
  destruct (shell_Fields (ShellCommand p) (lookupVar p w)) as [[|name args]|e].
  1, 3: split; [done | by intros (? & ? & ? & ? & _)].
  destruct (stdinPipeErr w), (stdoutPipeErr w), (stderrPipeErr w), (startErr w);
    try (split; [done | by intros (? & ? & ? & _ & ? & _)]).
  run_connect.
  destruct (stdinWriteErr w);
    [split; [done | by intros (? & ? & ? & _ & _ & ? & _)]|].
  simpl.
  destruct (lookForMarker _ _ _) as [[e|] out|] eqn:El.
  - destruct (timerFirst w);
      (split; [done|]); intros (n & a & s & [= <- <-] & _ & _ & ? & Hw & _);
      [done|].
    assert (lookForMarker (sshCmdDebugOf (name :: args)) (procStdout w)
              (procStderr w) = Sends None (copied (Bufio.r s))) as El'
      by (apply lookForMarker_nil; eauto).
    congruence.
  - apply lookForMarker_nil in El as (s & Hw & ->).
    destruct (timerFirst w).
    + split; [done | by intros (? & ? & ? & _ & _ & _ & ? & _)].
    + simpl. split.
      * intros [= <-]. by exists name, args, s.
      * intros (n & a & s' & [= <- <-] & _ & _ & _ & Hw' & ->).
        congruence.
  - split; [done|]. intros (n & a & s & [= <- <-] & _ & _ & ? & Hw & _).
    assert (lookForMarker (sshCmdDebugOf (name :: args)) (procStdout w)
              (procStderr w) = Sends None (copied (Bufio.r s))) as El'
      by (apply lookForMarker_nil; eauto).
    congruence.
Qed.

(** X10: when no read of the child's stdout is empty, the stdout of a
    connection is an end piece of the child's stdout: the child's output
    is some whole lines, then a whole line that is the marker (a carriage
    return at its end put aside), then the bytes the scanner had read ahead,
    then what the connection delivers, byte for byte.  The marker line ends
    with its newline, or it has none and ends the output: nothing was read
    ahead then and nothing is delivered. *)
Theorem doConnect_stdout_is_rest_of_output
    (p : ShellTransportCustomCmdParams) (w : World) (conn : ShellConnCustomCmd)
    (Hconn : Conn (doConnect p w).2 = Some conn)
    (Hreads : Forall (fun c => c <> EmptyString) (chunks (procStdout w))) :
  exists before raw sep readAhead,
    bytes_of (procStdout w)
    = before +:+ raw +:+ sep +:+ readAhead +:+ bytes_of (stdout conn)
    /\ wholeLines before
    /\ Bufio.dropCR raw = echoMarkerConnected
    /\ Bufio.IndexByte raw Bufio.newline = None
    /\ (sep = nl
        \/ (sep = EmptyString /\ readAhead = EmptyString
            /\ bytes_of (stdout conn) = EmptyString)).
Proof.
  apply doConnect_conn_marker in Hconn as (s & Hw & ->).
  assert (steady (Bufio.NewScanner (procStdout w))) as Hst.
  { split; [|split]; [by split|done|done]. }
  destruct (waitMarker_marker_line _ _ _ Hst Hw)
    as (before & raw & sep & Hu & Hwl & Hraw & Hn & Hsep).
  exists before, raw, sep, (Bufio.data s).
  split; [|split; [done|split; [done|split; [done|]]]].
  - unfold unread in Hu. cbn [Bufio.data Bufio.r Bufio.NewScanner] in Hu.
    rewrite app_empty in Hu. rewrite Hu. reflexivity.
  - destruct Hsep as [?|[? Hempty]]; [by left|right].
    split; [done|]. unfold unread in Hempty.
    change (bytes_of (copied (Bufio.r s))) with (bytes_of (Bufio.r s)).
    destruct (Bufio.data s); [|done].
    by rewrite app_empty in Hempty.
Qed.

End Connection.

Lemma doConnect_stdout_is_rest_of_output_witness :
  exists conn before raw sep readAhead,
    Conn (doConnect shParams
            (quietWorld ["Welcome" +:+ nl +:+ "__CONN"; "ECTED__" +:+ nl +:+ "x"; "y"]
               REOF)).2 = Some conn
    /\ "Welcome" +:+ nl +:+ "__CONNECTED__" +:+ nl +:+ "xy"
       = before +:+ raw +:+ sep +:+ readAhead +:+ bytes_of (stdout conn)
    /\ wholeLines before
    /\ Bufio.dropCR raw = echoMarkerConnected
    /\ (sep = nl
        \/ (sep = EmptyString /\ readAhead = EmptyString
            /\ bytes_of (stdout conn) = EmptyString)).
Proof.
  edestruct (doConnect_stdout_is_rest_of_output shParams
    (quietWorld ["Welcome" +:+ nl +:+ "__CONN"; "ECTED__" +:+ nl +:+ "x"; "y"] REOF))
    as (before & raw & sep & readAhead & Hb & Hwl & Hraw & _ & Hsep);
    [vm_compute; reflexivity | repeat constructor; discriminate |].
  eexists. exists before, raw, sep, readAhead.
  split; [vm_compute; reflexivity|].
  split; [exact Hb|]. split; [exact Hwl|]. split; [exact Hraw|exact Hsep].
Defined.

(** ** The handshake, line by line *)

Lemma lineScan_partial (d rest : string) (e : rend) (o : lineOutcome) :
  lineScan (d +:+ rest) e o ->
  Bufio.IndexByte d Bufio.newline = None ->
  (Z.of_nat (String.length d) < Bufio.MaxScanTokenSize)%Z.
Proof.
  intros Hl Hd. pose proof (IndexByte_app_None d rest Bufio.newline Hd) as Hi.
  inversion Hl as [out e0 Hn Hlen|out e0 i Hn Hlen _|out e0 i o0 Hn Hlen _ _];
    subst.
  - rewrite length_app in Hlen. lia.
  - rewrite Hn in Hi. lia.
  - rewrite Hn in Hi. lia.
Qed.

Lemma fill_ending (s : Bufio.Scanner) (cs : list string) (e : rend) :
  bufferOk s ->
  (Bufio.send s < Bufio.cap s)%Z ->
  Bufio.err s = None ->
  Forall (fun c => c <> EmptyString) cs ->
  match Bufio.fill s 0 cs e with
  | Bufio.Filled s3 =>
      bufferOk s3 /\ ending e s3
      /\ unread s3 = Bufio.data s +:+ bytes_of {| chunks := cs; rends := e |}
  | Bufio.FillBlocks => e = RHang /\ cs = []
  end.
Proof.
  intros [Hs Hc] Hroom Herr Hne.
  destruct (Bufio.fill s 0 cs e) as [s3|] eqn:Ef.
  - split; [|split; [|by apply (fill_unread _ _ _ _ _ Ef)]].
    + destruct cs as [|c cs]; cbn [Bufio.fill] in Ef.
      * unfold Read, Bufio.setErr in Ef. cbn in Ef. rewrite Herr in Ef.
        destruct e; [| |done]; injection Ef as <-; done.
      * inversion Hne as [|? ? Hc0 Hcs]; subst.
        unfold Read in Ef. cbn [chunks rends] in Ef.
        set (room := Z.to_nat (Bufio.cap s - Bufio.send s)) in *.
        assert (exists k, room = S k) as [k Hk].
        { exists (Nat.pred room). unfold room. lia. }
        pose proof (length_take_le room c) as Hle.
        destruct c as [|a c]; [done|].
        rewrite Hk in Ef. cbn [Strings.take] in Ef. injection Ef as <-.
        unfold bufferOk, Bufio.send in *. cbn [Bufio.start Bufio.data Bufio.cap].
        rewrite length_app. rewrite Hk in Hle. cbn [Strings.take] in Hle. lia.
    + destruct cs as [|c cs]; cbn [Bufio.fill] in Ef.
      * unfold Read, Bufio.setErr in Ef. cbn in Ef. rewrite Herr in Ef.
        destruct e; [| |done]; injection Ef as <-; unfold ending; done.
      * inversion Hne as [|? ? Hc0 Hcs]; subst.
        unfold Read in Ef. cbn [chunks rends] in Ef.
        set (room := Z.to_nat (Bufio.cap s - Bufio.send s)) in *.
        assert (exists k, room = S k) as [k Hk].
        { exists (Nat.pred room). unfold room. lia. }
        destruct c as [|a c]; [done|].
        rewrite Hk in Ef. cbn [Strings.take] in Ef. injection Ef as <-.
        unfold ending. cbn [Bufio.err Bufio.r chunks rends]. rewrite Herr.
        split; [done|].
        match goal with
        | |- context [match ?d with EmptyString => _ | String _ _ => _ end] =>
            destruct d; [done|]
        end.
        by constructor.
  - destruct cs as [|c cs]; cbn [Bufio.fill] in Ef.
    + unfold Read in Ef. cbn in Ef. by destruct e.
    + exfalso. inversion Hne as [|? ? Hc0 Hcs]; subst.
      unfold Read in Ef. cbn [chunks rends] in Ef.
      set (room := Z.to_nat (Bufio.cap s - Bufio.send s)) in *.
      assert (exists k, room = S k) as [k Hk].
      { exists (Nat.pred room). unfold room. lia. }
      destruct c as [|a c]; [done|].
      rewrite Hk in Ef. cbn [Strings.take] in Ef. done.
Qed.

Lemma atEndOf_empty (e : rend) :
  atEndOf e EmptyString
  = match e with
    | REOF => OutputClosed
    | RErr x => ReadFailed x
    | RHang => OutputHangs
    end.
Proof. by destruct e. Qed.

Lemma lineScan_empty (e : rend) : lineScan EmptyString e (atEndOf e EmptyString).
Proof. by apply lineScan_last. Qed.

(** One [Scan] on an output with short lines: a line, and the rest of the
    output for the lines after it; or the end of the output. *)
Lemma scan_lines (fuel : nat) (s : Bufio.Scanner) (e : rend) (o : lineOutcome) :
  bufferOk s -> ending e s -> lineScan (unread s) e o ->
  match Bufio.scan fuel s with
  | Bufio.Token line s' =>
      bufferOk s' /\ ending e s'
      /\ ((line = echoMarkerConnected /\ o = MarkerFound)
          \/ (line <> echoMarkerConnected /\ lineScan (unread s') e o))
  | Bufio.Stop s' =>
      match Bufio.Scanner_Err s' with
      | None => e = REOF /\ o = OutputClosed
      | Some x => e = RErr x /\ o = ReadFailed x
      end
  | Bufio.Blocks => e = RHang /\ o = OutputHangs
  | Bufio.OutOfFuel => True
  end.
Proof.
  revert s. induction fuel as [|fuel IH]; intros s Hok Hen Hl; [done|].
  cbn [Bufio.scan].
  destruct (Bufio.IndexByte (Bufio.data s) Bufio.newline) as [i|] eqn:Ei.
  - (* a whole line is in the buffer *)
    rewrite (trySplit_newline s i Ei).
    pose proof (IndexByte_lt _ _ _ Ei) as Hlt.
    pose proof (IndexByte_app_Some _ (bytes_of (Bufio.r s)) _ _ Ei) as Hia.
    split; [|split; [exact Hen|]].
    { destruct Hok as [Hs Hc]. unfold bufferOk, Bufio.send in *.
      cbn [Bufio.start Bufio.data Bufio.cap]. rewrite length_drop. lia. }
    unfold unread in *. cbn [Bufio.data Bufio.r].
    inversion Hl as [out e0 Hn _|out e0 j Hn _ Hline|out e0 j o0 Hn _ Hline Hrest];
      subst; rewrite Hia in Hn; [done| |]; injection Hn as <-.
    + left. by rewrite take_app_le in Hline by lia.
    + right. rewrite take_app_le in Hline by lia.
      by rewrite drop_app_le in Hrest by lia.
  - destruct (Bufio.err s) as [se|] eqn:Ee.
    + (* the end of the stream has been seen *)
      assert (chunks (Bufio.r s) = []) as Hnil.
      { unfold ending in Hen. rewrite Ee in Hen. by destruct se, Hen. }
      assert (unread s = Bufio.data s) as Hu.
      { unfold unread, bytes_of. rewrite Hnil. simpl. apply app_empty_r. }
      assert (atEndOf e EmptyString
              = match se with
                | Bufio.AtEOF => OutputClosed
                | Bufio.Failed x => ReadFailed x
                end) as Hend.
      { unfold ending in Hen. rewrite Ee in Hen.
        destruct se, Hen as [-> _]; done. }
      rewrite Hu in Hl.
      destruct (Bufio.data s) as [|a d] eqn:Ed.
      * destruct (trySplit_none s) as (s1 & -> & _ & _ & _ & _ & He1);
          [by rewrite Ed | by right |].
        rewrite He1, Ee. unfold Bufio.Scanner_Err. cbn [Bufio.err].
        inversion Hl as [out e0 _ _|out e0 j Hn|out e0 j o0 Hn]; subst; [|done|done].
        unfold ending in Hen. rewrite Ee in Hen.
        destruct se, Hen as [-> _]; done.
      * rewrite (trySplit_final s se); [|by rewrite Ed|done|by rewrite Ed].
        rewrite Ed, drop_all.
        split; [|split].
        -- destruct Hok as [Hs Hc]. unfold bufferOk, Bufio.send in *.
           rewrite Ed in Hc. cbn [Bufio.start Bufio.data Bufio.cap String.length] in *.
           lia.
        -- unfold ending in *. cbn [Bufio.err Bufio.r]. by rewrite Ee in *.
        -- unfold unread, bytes_of. cbn [Bufio.data Bufio.r]. rewrite Hnil.
           simpl.
           inversion Hl as [out e0 _ _|out e0 j Hn|out e0 j o0 Hn]; subst;
             [|congruence|congruence].
           destruct (String.eqb (Bufio.dropCR (String a d)) echoMarkerConnected)
             eqn:Em.
           ++ left. apply String.eqb_eq in Em. split; [done|].
              unfold ending in Hen. rewrite Ee in Hen. unfold atEndOf.
              destruct se, Hen as [-> _]; by rewrite Em.
           ++ right. split; [by apply eqb_false_ne|].
              replace (atEndOf e (String a d)) with (atEndOf e EmptyString);
                [apply lineScan_empty|].
              unfold atEndOf. destruct e; by rewrite ?Em.
    + (* more has to be read *)
      destruct (trySplit_none s Ei) as (s1 & -> & Hr1 & Hc1 & Hs1 & Hd1 & He1);
        [by left|].
      rewrite He1, Ee.
      assert (bufferOk s1) as Hok1.
      { destruct Hok. unfold bufferOk, Bufio.send. rewrite Hs1, Hd1, Hc1. done. }
      destruct (makeRoom_fits s1 Hok1) as (s2 & -> & Hr2 & Hd2 & He2 & Hok2 & Hroom).
      { rewrite Hd1. by apply (lineScan_partial _ (bytes_of (Bufio.r s)) e o). }
      unfold ending in Hen. rewrite Ee in Hen. destruct Hen as [Hend Hne].
      rewrite Hr2, Hr1, Hend.
      pose proof (fill_ending s2 (chunks (Bufio.r s)) e Hok2 Hroom) as Hf.
      specialize (Hf ltac:(congruence) Hne).
      destruct (Bufio.fill s2 0 (chunks (Bufio.r s)) e) as [s3|].
      * destruct Hf as (Hok3 & Hen3 & Hu3).
        apply IH; [done|done|].
        rewrite Hu3, Hd2, Hd1. unfold unread in Hl.
        exact Hl.
      * destruct Hf as [-> Hnil]. split; [done|].
        unfold unread, bytes_of in Hl. rewrite Hnil in Hl. simpl in Hl.
        rewrite app_empty_r in Hl.
        inversion Hl as [out e0 _ _|out e0 j Hn|out e0 j o0 Hn]; subst;
          [done|congruence|congruence].
Qed.

Lemma waitMarker_lines (fuel : nat) (s : Bufio.Scanner) (e : rend) (o : lineOutcome) :
  bufferOk s -> ending e s -> lineScan (unread s) e o ->
  match waitMarker fuel s with
  | GotMarker _ => o = MarkerFound
  | ScanFailed x => e = RErr x /\ o = ReadFailed x
  | StdoutClosed => e = REOF /\ o = OutputClosed
  | NeverReturns => e = RHang /\ o = OutputHangs
  | WaitOutOfFuel => True
  end.
Proof.
  revert s. induction fuel as [|fuel IH]; intros s Hok Hen Hl; [done|].
  cbn [waitMarker]. unfold Bufio.Scan.
  pose proof (scan_lines (Bufio.total (chunks (Bufio.r s)) + 2) s e o Hok Hen Hl)
    as Hscan.
  destruct (Bufio.scan _ s) as [line s'|s'| |]; [| |done|done].
  - destruct Hscan as (Hok' & Hen' & [[Hline Ho]|[Hline Hl']]).
    + rewrite Hline, String.eqb_refl. done.
    + destruct (String.eqb line echoMarkerConnected) eqn:E.
      * by apply String.eqb_eq in E.
      * by apply IH.
  - by destruct (Bufio.Scanner_Err s').
Qed.

(** What the goroutine's loop returns on an output with short lines and no
    empty read. *)
Lemma waitMarker_outcome (rawStdout : reader) (o : lineOutcome) :
  Forall (fun c => c <> EmptyString) (chunks rawStdout) ->
  lineScan (bytes_of rawStdout) (rends rawStdout) o ->
  match waitMarker (Bufio.total (chunks rawStdout) + 1) (Bufio.NewScanner rawStdout) with
  | GotMarker _ => o = MarkerFound
  | ScanFailed x => rends rawStdout = RErr x /\ o = ReadFailed x
  | StdoutClosed => rends rawStdout = REOF /\ o = OutputClosed
  | NeverReturns => rends rawStdout = RHang /\ o = OutputHangs
  | WaitOutOfFuel => False
  end.
Proof.
  intros Hne Hl.
  pose proof (waitMarker_total rawStdout) as Htot.
  pose proof (waitMarker_lines (Bufio.total (chunks rawStdout) + 1)
                (Bufio.NewScanner rawStdout) (rends rawStdout) o) as Hw.
  destruct (waitMarker _ _); try (apply Hw; done). done.
Qed.

Section Handshake.
Context `{Externals}.

Lemma doConnect_after_setup
    (p : ShellTransportCustomCmdParams) (w : World) :
  handshakeReached p w ->
  exists name args,
    shell_Fields (ShellCommand p) (lookupVar p w) = Ok (name :: args)
    /\ (doConnect p w).2
       = match lookForMarker (sshCmdDebugOf (name :: args))
                 (procStdout w) (procStderr w) with
         | Sends msg out =>
             if timerFirst w then timedOut
             else match msg with
                  | Some e => failedWith (Trace e)
                  | None =>
                      {| Conn := Some {| cmd := name :: args; stdout := out;
                                         stderr := procStderr w |};
                         ResErr := None |}
                  end
         | Silent => timedOut
         end.
Proof.
  intros ((name & args & Hf) & Hsetup & Hwrite).
  exists name, args. split; [done|].
  unfold setupError in Hsetup. unfold doConnect, doConnect_body.
  rewrite Hf, Hwrite.
  destruct (stdinPipeErr w), (stdoutPipeErr w), (stderrPipeErr w), (startErr w);
    try done.
  run_connect.
  destruct (lookForMarker _ _ _) as [[e|] out|]; destruct (timerFirst w);
    reflexivity.
Qed.

(** X11: when the child's stdout holds a line equal to the marker, with a
    carriage return before the newline or not, after any number of other
    lines, each line short enough for the scanner, and the timer does not
    fire first, [doConnect] returns a connection and no error. *)
Theorem doConnect_finds_marker_line
    (p : ShellTransportCustomCmdParams) (w : World)
    (Hreached : handshakeReached p w)
    (Htimer : timerFirst w = false)
    (Hreads : Forall (fun c => c <> EmptyString) (chunks (procStdout w)))
    (Hlines : lineScan (bytes_of (procStdout w)) (rends (procStdout w)) MarkerFound) :
  (exists conn, Conn (doConnect p w).2 = Some conn)
  /\ ResErr (doConnect p w).2 = None.
Proof.
  destruct (doConnect_after_setup p w Hreached) as (name & args & _ & ->).
  pose proof (waitMarker_outcome _ _ Hreads Hlines) as Hw.
  unfold lookForMarker.
  destruct (waitMarker _ _) as [s|x| | |];
    [ | by destruct Hw as [_ ?] | by destruct Hw as [_ ?]
      | by destruct Hw as [_ ?] | done ].
  rewrite Htimer. eauto.
Qed.

(** X12: when reading the child's stdout fails before a marker line was
    seen, and the timer does not fire first, [doConnect] fails with the
    read error, wrapped. *)
Theorem doConnect_stdout_read_error
    (p : ShellTransportCustomCmdParams) (w : World) (x : error)
    (Hreached : handshakeReached p w)
    (Htimer : timerFirst w = false)
    (Hreads : Forall (fun c => c <> EmptyString) (chunks (procStdout w)))
    (Hlines : lineScan (bytes_of (procStdout w)) (rends (procStdout w))
                (ReadFailed x)) :
  (doConnect p w).2
  = failedWith (Trace (Annotatef x
      "reading from stdout while waiting for connection marker" [])).
Proof.
  destruct (doConnect_after_setup p w Hreached) as (name & args & _ & ->).
  pose proof (waitMarker_outcome _ _ Hreads Hlines) as Hw.
  unfold lookForMarker.
  destruct (waitMarker _ _) as [s|x'| | |];
    [ done | | by destruct Hw as [_ ?] | by destruct Hw as [_ ?] | done ].
  destruct Hw as [_ [= <-]]. by rewrite Htimer.
Qed.

(** X13: when every step before the handshake succeeds, no read of the
    child's stdout is empty, and the child keeps its stdout open after
    writing lines none of which is the marker, each line and the rest
    without a newline shorter than 64 KiB, [doConnect] fails with the
    timeout error, whatever the timer does first. *)
Theorem doConnect_silent_child_times_out
    (p : ShellTransportCustomCmdParams) (w : World)
    (Hreached : handshakeReached p w)
    (Hreads : Forall (fun c => c <> EmptyString) (chunks (procStdout w)))
    (Hlines : lineScan (bytes_of (procStdout w)) (rends (procStdout w))
                OutputHangs) :
  (doConnect p w).2 = timedOut.
Proof.
  destruct (doConnect_after_setup p w Hreached) as (name & args & _ & ->).
  pose proof (waitMarker_outcome _ _ Hreads Hlines) as Hw.
  unfold lookForMarker.
  destruct (waitMarker _ _) as [s|x'| | |];
    [ done | by destruct Hw as [_ ?] | by destruct Hw as [_ ?] | done | done ].
Qed.

End Handshake.

Lemma handshakeReached_sh (out : list string) (e : rend) :
  handshakeReached shParams (quietWorld out e).
Proof. split; [by exists "/bin/sh", []|done]. Qed.

Lemma doConnect_finds_marker_line_witness :
  exists conn,
    Conn (doConnect shParams
            (quietWorld ["Welcome" +:+ nl +:+ "__CONN"; "ECTED__" +:+ crlf; "x"] RHang)).2
    = Some conn.
Proof.
  apply (doConnect_finds_marker_line shParams
    (quietWorld ["Welcome" +:+ nl +:+ "__CONN"; "ECTED__" +:+ crlf; "x"] RHang)).
  - apply handshakeReached_sh.
  - reflexivity.
  - repeat constructor; discriminate.
  - apply (lineScan_skip _ _ 7); [reflexivity|reflexivity|discriminate|].
    apply (lineScan_marker _ _ 14); reflexivity.
Defined.

Lemma doConnect_stdout_read_error_witness :
  (doConnect shParams
     (quietWorld ["Last login" +:+ nl +:+ "$ "] (RErr (SysError "input/output error")))).2
  = failedWith (Trace (Annotatef (SysError "input/output error")
      "reading from stdout while waiting for connection marker" [])).
Proof.
  apply (doConnect_stdout_read_error shParams
    (quietWorld ["Last login" +:+ nl +:+ "$ "] (RErr (SysError "input/output error")))).
  - apply handshakeReached_sh.
  - reflexivity.
  - repeat constructor; discriminate.
  - apply (lineScan_skip _ _ 10); [reflexivity|reflexivity|discriminate|].
    apply (lineScan_last "$ " (RErr (SysError "input/output error")));
      reflexivity.
Defined.

Lemma doConnect_silent_child_times_out_witness :
  (doConnect shParams (quietWorld ["Password: "] RHang)).2 = timedOut.
Proof.
  apply (doConnect_silent_child_times_out shParams (quietWorld ["Password: "] RHang)).
  - apply handshakeReached_sh.
  - repeat constructor; discriminate.
  - apply (lineScan_last "Password: " RHang); reflexivity.
Defined.

(** ** A line too long for the scanner *)

Lemma IndexByte_app_None_inv (a b : string) (c : ascii) :
  Bufio.IndexByte (a +:+ b) c = None -> Bufio.IndexByte a c = None.
Proof.
  intros Hn. destruct (Bufio.IndexByte a c) as [i|] eqn:E; [|done].
  by rewrite (IndexByte_app_Some a b c i E) in Hn.
Qed.

Lemma take_app_ge (n : nat) (a b : string) :
  (String.length a <= n)%nat ->
  Strings.take n (a +:+ b) = a +:+ Strings.take (n - String.length a) b.
Proof.
  revert n. induction a as [|x a IH]; intros n Hle.
  - rewrite !app_empty. simpl. by rewrite Nat.sub_0_r.
  - destruct n as [|n]; [simpl in Hle; lia|].
    rewrite !app_String. cbn [Strings.take String.length Nat.sub].
    rewrite IH; [done|simpl in Hle; lia].
Qed.

Lemma length_bytes_of (cs : list string) (e : rend) :
  String.length (bytes_of {| chunks := cs; rends := e |}) = Bufio.total cs.
Proof.
  induction cs as [|c cs IH]; [done|].
  rewrite bytes_of_cons, length_app, IH. reflexivity.
Qed.

Lemma makeRoom_growing (s : Bufio.Scanner) :
  growing s ->
  match Bufio.makeRoom s with
  | Bufio.TooLong s' => Bufio.Scanner_Err s' = Some Bufio.ErrTooLong
  | Bufio.Room s2 =>
      Bufio.r s2 = Bufio.r s /\ Bufio.data s2 = Bufio.data s
      /\ Bufio.err s2 = None /\ Bufio.start s2 = 0%Z
      /\ (Z.of_nat (String.length (Bufio.data s)) < Bufio.cap s2)%Z
      /\ (Bufio.cap s2 <= Bufio.MaxScanTokenSize)%Z
  end.
Proof.
  intros (He & Hs & Hlen & Hcap & _ & _).
  unfold Bufio.makeRoom, Bufio.send. rewrite Hs. cbn [Z.ltb Z.compare andb].
  rewrite Hs, Z.add_0_l.
  unfold Bufio.MaxScanTokenSize, Bufio.startBufSize in *.
  destruct (Z.of_nat (String.length (Bufio.data s)) =? Bufio.cap s)%Z eqn:Efull.
  - apply Z.eqb_eq in Efull.
    destruct (64 * 1024 <=? Bufio.cap s)%Z eqn:Emax.
    + unfold Bufio.Scanner_Err, Bufio.setErr. by rewrite He.
    + apply Z.leb_gt in Emax. cbn [Bufio.r Bufio.data Bufio.err Bufio.start Bufio.cap].
      repeat split; try done; destruct (Bufio.cap s * 2 =? 0)%Z eqn:E0; lia.
  - apply Z.eqb_neq in Efull. repeat split; try done. lia.
Qed.

Lemma scan_too_long (fuel : nat) (s : Bufio.Scanner) :
  growing s ->
  match Bufio.scan fuel s with
  | Bufio.Stop s' => Bufio.Scanner_Err s' = Some Bufio.ErrTooLong
  | Bufio.OutOfFuel => True
  | _ => False
  end.
Proof.
  revert s. induction fuel as [|fuel IH]; intros s Hg; [done|].
  pose proof Hg as (He & Hs & Hlen & Hcap & Hne & Hnl & Hlong).
  assert (String.length (Bufio.data s) <= Z.to_nat Bufio.MaxScanTokenSize)%nat
    as Hdn by lia.
  assert (Bufio.IndexByte (Bufio.data s) Bufio.newline = None) as Hi.
  { unfold unread in Hnl. rewrite take_app_ge in Hnl by done.
    by apply IndexByte_app_None_inv in Hnl. }
  cbn [Bufio.scan].
  destruct (trySplit_none s Hi) as (s1 & -> & Hr1 & Hc1 & Hs1 & Hd1 & He1);
    [by left|].
  rewrite He1, He.
  assert (growing s1) as Hg1.
  { unfold growing, unread. by rewrite He1, Hs1, Hd1, Hc1, Hr1. }
  pose proof (makeRoom_growing s1 Hg1) as Hm.
  destruct (Bufio.makeRoom s1) as [s2|s2]; [|done].
  destruct Hm as (Hr2 & Hd2 & He2 & Hs2 & Hlt & Hcap2).
  rewrite Hr2, Hr1.
  destruct (chunks (Bufio.r s)) as [|c cs] eqn:Ecs.
  { exfalso. unfold unread in Hlong. rewrite length_app in Hlong.
    rewrite <- (reader_eta (Bufio.r s)), Ecs, length_bytes_of in Hlong.
    simpl in Hlong. rewrite Hd1 in Hlt. lia. }
  inversion Hne as [|? ? Hc0 Hcs]; subst.
  destruct (fill_reads s2 c cs (rends (Bufio.r s)) Hc0)
    as (s3 & Hf & He3 & Hs3 & Hc3 & Hsend3 & Hne3).
  { unfold Bufio.send. rewrite Hs2, Hd2. lia. }
  rewrite Hf. apply IH.
  pose proof (fill_unread _ _ _ _ _ Hf) as Hu3.
  unfold growing. rewrite He3, He2, Hs3, Hs2, Hc3.
  repeat split; try done.
  - unfold Bufio.send in Hsend3. rewrite Hs3, Hs2 in Hsend3. lia.
  - by apply Hne3.
  - rewrite Hu3, Hd2, Hd1, <- Ecs, reader_eta. exact Hnl.
  - rewrite Hu3, Hd2, Hd1, <- Ecs, reader_eta. exact Hlong.
Qed.

Lemma waitMarker_too_long (rawStdout : reader) :
  Forall (fun c => c <> EmptyString) (chunks rawStdout) ->
  firstLineTooLong (bytes_of rawStdout) ->
  waitMarker (Bufio.total (chunks rawStdout) + 1) (Bufio.NewScanner rawStdout)
  = ScanFailed Bufio.ErrTooLong.
Proof.
  intros Hne Hlong.
  rewrite Nat.add_comm. cbn [Nat.add waitMarker].
  pose proof (Scan_total (Bufio.NewScanner rawStdout)) as Htot.
  unfold Bufio.Scan in *.
  pose proof (scan_too_long
    (Bufio.total (chunks (Bufio.r (Bufio.NewScanner rawStdout))) + 2)
    (Bufio.NewScanner rawStdout)) as Hscan.
  destruct (Bufio.scan _ _) as [line s'|s'| |]; try done.
  - destruct Hscan. unfold growing, Bufio.MaxScanTokenSize.
    cbn [Bufio.NewScanner Bufio.err Bufio.start Bufio.data Bufio.cap Bufio.r String.length].
    repeat split; try done.
    all: unfold unread; cbn [Bufio.NewScanner Bufio.data Bufio.r];
      rewrite app_empty; apply Hlong.
  - rewrite Hscan; [done|]. unfold growing, Bufio.MaxScanTokenSize.
    cbn [Bufio.NewScanner Bufio.err Bufio.start Bufio.data Bufio.cap Bufio.r String.length].
    repeat split; try done.
    all: unfold unread; cbn [Bufio.NewScanner Bufio.data Bufio.r];
      rewrite app_empty; apply Hlong.
  - destruct Hscan. unfold growing, Bufio.MaxScanTokenSize.
    cbn [Bufio.NewScanner Bufio.err Bufio.start Bufio.data Bufio.cap Bufio.r String.length].
    repeat split; try done.
    all: unfold unread; cbn [Bufio.NewScanner Bufio.data Bufio.r];
      rewrite app_empty; apply Hlong.
Qed.

Section TooLong.
Context `{Externals}.

(** X14: when the child's stdout begins with 64 KiB or more without a
    newline, and the timer does not fire first, [doConnect] fails with the
    scanner's error for a token too long, wrapped; nothing of what the
    child writes after that is looked at. *)
Theorem doConnect_first_line_too_long
    (p : ShellTransportCustomCmdParams) (w : World)
    (Hreached : handshakeReached p w)
    (Htimer : timerFirst w = false)
    (Hreads : Forall (fun c => c <> EmptyString) (chunks (procStdout w)))
    (Hlong : firstLineTooLong (bytes_of (procStdout w))) :
  (doConnect p w).2
  = failedWith (Trace (Annotatef Bufio.ErrTooLong
      "reading from stdout while waiting for connection marker" [])).
Proof.
  destruct (doConnect_after_setup p w Hreached) as (name & args & _ & ->).
  unfold lookForMarker. rewrite (waitMarker_too_long _ Hreads Hlong).
  by rewrite Htimer.
Qed.

End TooLong.

Lemma doConnect_first_line_too_long_witness :
  (doConnect shParams
     (quietWorld [String "x" (repeatByte "x" (Z.to_nat 65535));
                  nl +:+ echoMarkerConnected +:+ nl] REOF)).2
  = failedWith (Trace (Annotatef Bufio.ErrTooLong
      "reading from stdout while waiting for connection marker" [])).
Proof.
  apply (doConnect_first_line_too_long shParams
    (quietWorld [String "x" (repeatByte "x" (Z.to_nat 65535));
                 nl +:+ echoMarkerConnected +:+ nl] REOF)).
  - apply handshakeReached_sh.
  - reflexivity.
  - repeat constructor; discriminate.
  - split.
    + vm_compute. reflexivity.
    + apply Nat.leb_le. vm_compute. reflexivity.
Defined.

Lemma doConnect_delivers_later_reads_witness :
  exists conn,
    Conn (doConnect shParams
            (quietWorld [echoMarkerConnected +:+ nl +:+ "a"; "b" +:+ nl] RHang)).2
    = Some conn
    /\ bytes_of (stdout conn) = "b" +:+ nl.
Proof.
  destruct (doConnect_delivers_later_reads shParams
    (quietWorld [echoMarkerConnected +:+ nl +:+ "a"; "b" +:+ nl] RHang)
    "/bin/sh" [] "a" ["b" +:+ nl] RHang)
    as (_ & conn & Hconn & _ & Hbytes);
    try reflexivity; try (by vm_compute).
  exists conn. split; [exact Hconn|exact Hbytes].
Defined.
